(** * github_repo_sync: the concurrent sync service of cmd/main/main.go

    A shallow embedding of the Go program: the configuration loader, the
    per-repository updater [processRepo], and the goroutines of one process
    (main, the run loop, [syncRepos] and its workers) as a labelled transition
    system over an explicit state.  Everything the program calls but does not
    define (the file system, go-git, the GitHub client, the duration parser)
    is an interface, [Host]; a small simulated host instantiates it for the
    concrete scenarios. *)

From Stdlib Require Import ZArith Lia String Ascii Permutation.
From stdpp Require Import base numbers list sets strings pretty.

Local Open Scope Z_scope.
Local Open Scope string_scope.
Local Open Scope list_scope.

(** ** Data model (main.go, lines 22-43) *)

(** [Config]: the Go [int] fields are read from YAML and only compared or
    passed on, never computed with, so they are plain integers. *)
Record Config := {
  GithubToken : string;
  GithubUser : string;
  ReposDir : string;
  PollInterval : string;
  WorkerCount : Z;
  WorkQueueSize : Z
}.

(** The two fields of [github.Repository] the program reads. *)
Record Repository := {
  Name : string;
  CloneURL : string
}.

Record RepoTask := {
  Repo : Repository;
  RepoPath : string
}.

(** Errors produced outside this program.  Two of go-git's are sentinels the
    program compares against; [ErrNotExist] is what [os.IsNotExist] tests. *)
Inductive ExtErr :=
| NoErrAlreadyUpToDate
| ErrNonFastForwardUpdate
| ErrNotExist
| ErrOther (msg : string).

(** Errors built by the program itself with [fmt.Errorf]; one constructor
    per format string. *)
Inductive GoErr :=
| ErrClone (e : ExtErr)      (* "failed to clone repository: %v" *)
| ErrOpen (e : ExtErr)       (* "failed to open repository: %v" *)
| ErrWorktree (e : ExtErr)   (* "failed to get worktree: %v" *)
| ErrPull (e : ExtErr)       (* "failed to pull repository: %v" *)
| ErrMkdir (e : ExtErr)      (* "failed to create repos directory: %v" *)
| ErrList (e : ExtErr).      (* "failed to get repositories list: %v" *)

#[global] Instance ExtErr_eq_dec : EqDecision ExtErr.
Proof. solve_decision. Defined.
#[global] Instance GoErr_eq_dec : EqDecision GoErr.
Proof. solve_decision. Defined.
#[global] Instance Repository_eq_dec : EqDecision Repository.
Proof. solve_decision. Defined.
#[global] Instance RepoTask_eq_dec : EqDecision RepoTask.
Proof. solve_decision. Defined.

(** [http.BasicAuth], [git.CloneOptions], [git.PullOptions] and
    [github.RepositoryListOptions], with the fields the program sets. *)
Record BasicAuth := { Username : string; Password : string }.
Record CloneOptions := { URL : string; CloneAuth : BasicAuth }.
Record PullOptions := { PullAuth : BasicAuth }.
Record RepositoryListOptions := {
  Visibility : string;
  PerPage : Z;
  Page : Z
}.

(** One request to [client.Repositories.List]: the token the client was
    built with, the [user] argument and the options. *)
Record ListRequest := {
  lr_token : string;
  lr_user : string;
  lr_opt : RepositoryListOptions
}.

(** Lines written by [log.Printf], [log.Println], [log.Fatalf] and
    [fmt.Printf]; one constructor per format string. *)
Inductive LogLine :=
| LogCloning (worker : nat) (name : string)
| LogPulling (worker : nat) (name : string)
| LogUpToDate (name : string)
| LogWorkerError (worker : nat) (name : string) (e : GoErr)
| PrintFound (total : Z)
| LogSyncFinished
| LogShutdownSignal
| LogSyncError (e : GoErr)
| LogServiceStopped
| LogFatalConfig (e : ExtErr)
| LogFatalInterval (e : ExtErr).

(** Calls into the file system and go-git made by [processRepo], each with
    the answer it got. *)
Inductive Call :=
| CallStat (path : string) (err : option ExtErr)
| CallPlainClone (path : string) (o : CloneOptions) (err : option ExtErr)
| CallPlainOpen (path : string) (err : option ExtErr)
| CallWorktree (path : string) (err : option ExtErr)
| CallPull (path : string) (o : PullOptions) (err : option ExtErr).

(** ** The host: everything outside the repository

    A Go [error] result is an [option ExtErr] ([None] is [nil]).  [os.Stat],
    [git.PlainOpen] and [Repository.Worktree] only observe the world. *)
Class Host := {
  World : Type;
  os_Stat : string -> World -> option ExtErr;
  os_MkdirAll : string -> World -> World * option ExtErr;
  git_PlainClone : string -> CloneOptions -> World -> World * option ExtErr;
  git_PlainOpen : string -> World -> option ExtErr;
  git_Worktree : string -> World -> option ExtErr;
  git_Pull : string -> PullOptions -> World -> World * option ExtErr;
  Repositories_List : ListRequest -> World -> ExtErr + (list Repository * Z);
  filepath_Join : string -> string -> string;
  time_ParseDuration : string -> ExtErr + Z
}.

(** [os.IsNotExist]: false on [nil] and on every other error. *)
Definition os_IsNotExist (err : option ExtErr) : bool :=
  match err with
  | Some ErrNotExist => true
  | _ => false
  end.

(** [err == sentinel] on a possibly nil error. *)
Definition err_is (err : option ExtErr) (sentinel : ExtErr) : bool :=
  match err with
  | Some e => bool_decide (e = sentinel)
  | None => false
  end.

Definition is_nil {E} (err : option E) : bool :=
  match err with
  | Some _ => false
  | None => true
  end.

(** ** A small monad for code that touches the world, logs and may return
    an error early *)
Module GoM.
Section Monad.
Context {H : Host}.

Record Run := {
  run_world : World;
  run_log : list LogLine;
  run_calls : list Call
}.

Definition Go (A : Type) : Type := Run -> Run * (GoErr + A).

Definition ret {A} (a : A) : Go A := fun r => (r, inr a).
Definition throw {A} (e : GoErr) : Go A := fun r => (r, inl e).
Definition bind {A B} (m : Go A) (k : A -> Go B) : Go B :=
  fun r =>
    match m r with
    | (r', inl e) => (r', inl e)
    | (r', inr a) => k a r'
    end.

Definition logf (l : LogLine) : Go unit :=
  fun r => ({| run_world := run_world r;
               run_log := run_log r ++ [l];
               run_calls := run_calls r |}, inr tt).

(** An observation of the world, recorded as a call. *)
Definition observe (f : World -> option ExtErr)
    (c : option ExtErr -> Call) : Go (option ExtErr) :=
  fun r =>
    let err := f (run_world r) in
    ({| run_world := run_world r;
        run_log := run_log r;
        run_calls := run_calls r ++ [c err] |}, inr err).

(** An operation that may change the world, recorded as a call. *)
Definition perform (f : World -> World * option ExtErr)
    (c : option ExtErr -> Call) : Go (option ExtErr) :=
  fun r =>
    let '(w, err) := f (run_world r) in
    ({| run_world := w;
        run_log := run_log r;
        run_calls := run_calls r ++ [c err] |}, inr err).

Definition start (w : World) : Run :=
  {| run_world := w; run_log := []; run_calls := [] |}.
End Monad.
End GoM.

Import GoM.

Notation "x <- m ;; k" := (bind m (fun x => k))
  (at level 92, m at next level, right associativity).
Notation "m ;;; k" := (bind m (fun _ => k))
  (at level 92, right associativity).

(** ** The repo updater (main.go, lines 94-131) *)
Section Updater.
Context {H : Host}.

Definition Stat (path : string) : Go (option ExtErr) :=
  observe (os_Stat path) (CallStat path).
Definition PlainClone (path : string) (o : CloneOptions) : Go (option ExtErr) :=
  perform (git_PlainClone path o) (CallPlainClone path o).
Definition PlainOpen (path : string) : Go (option ExtErr) :=
  observe (git_PlainOpen path) (CallPlainOpen path).
Definition Worktree (path : string) : Go (option ExtErr) :=
  observe (git_Worktree path) (CallWorktree path).
Definition Pull (path : string) (o : PullOptions) : Go (option ExtErr) :=
  perform (git_Pull path o) (CallPull path o).

(** [if err != nil { return wrap(err) }] *)
Definition check (wrap : ExtErr -> GoErr) (err : option ExtErr) : Go unit :=
  match err with
  | Some e => throw (wrap e)
  | None => ret tt
  end.

(** [w] is the worker's id, [config] its configuration. *)
Definition processRepo (w : nat) (config : Config) (task : RepoTask) : Go unit :=
  let auth := {| Username := "git"; Password := GithubToken config |} in
  err <- Stat (RepoPath task) ;;
  if os_IsNotExist err then
    logf (LogCloning w (Name (Repo task))) ;;;
    err <- PlainClone (RepoPath task)
             {| URL := CloneURL (Repo task); CloneAuth := auth |} ;;
    check ErrClone err
  else
    logf (LogPulling w (Name (Repo task))) ;;;
    err <- PlainOpen (RepoPath task) ;;
    check ErrOpen err ;;;
    err <- Worktree (RepoPath task) ;;
    check ErrWorktree err ;;;
    err <- Pull (RepoPath task) {| PullAuth := auth |} ;;
    if err_is err NoErrAlreadyUpToDate then
      logf (LogUpToDate (Name (Repo task)))
    else if negb (is_nil err) && negb (err_is err ErrNonFastForwardUpdate) then
      match err with
      | Some e => throw (ErrPull e)
      | None => ret tt
      end
    else ret tt.

(** The updater run on a world: the world after, what was logged, what
    was called, and the returned error ([None] is [nil]). *)
Record Outcome := {
  out_world : World;
  out_log : list LogLine;
  out_calls : list Call;
  out_err : option GoErr
}.

Definition update (w : nat) (config : Config) (task : RepoTask) (wd : World)
    : Outcome :=
  let '(r, res) := processRepo w config task (start wd) in
  {| out_world := run_world r;
     out_log := run_log r;
     out_calls := run_calls r;
     out_err := match res with inl e => Some e | inr _ => None end |}.
End Updater.

(** The credential every clone and pull carries: the fixed user name and
    the configured token. *)
Definition credential (config : Config) : BasicAuth :=
  {| Username := "git"; Password := GithubToken config |}.

Definition cloneOptions (config : Config) (task : RepoTask) : CloneOptions :=
  {| URL := CloneURL (Repo task); CloneAuth := credential config |}.

Definition pullOptions (config : Config) : PullOptions :=
  {| PullAuth := credential config |}.

(** A pull that was refused as not a fast-forward; a run of the updater
    that met one. *)
Definition refused (c : Call) : bool :=
  match c with
  | CallPull _ _ (Some ErrNonFastForwardUpdate) => true
  | _ => false
  end.

Definition non_fast_forward {H : Host} (o : Outcome) : bool :=
  existsb refused (out_calls o).

(** What the idempotence of the updater rests on in git, with the remote
    part of the world unchanged: a clone or a pull that succeeded leaves a
    repository at the path that opens and on which the next pull with the
    same credential answers "already up to date"; a pull that answers so
    changes nothing. *)
Class GitLaws (H : Host) : Prop := {
  clone_then_up_to_date : forall path o wd wd',
    git_PlainClone path o wd = (wd', None) ->
    os_Stat path wd' <> Some ErrNotExist /\
    git_PlainOpen path wd' = None /\
    git_Worktree path wd' = None /\
    git_Pull path {| PullAuth := CloneAuth o |} wd'
      = (wd', Some NoErrAlreadyUpToDate);
  pull_then_up_to_date : forall path o wd wd',
    git_Pull path o wd = (wd', None) ->
    os_Stat path wd' <> Some ErrNotExist /\
    git_PlainOpen path wd' = None /\
    git_Worktree path wd' = None /\
    git_Pull path o wd' = (wd', Some NoErrAlreadyUpToDate);
  up_to_date_unchanged : forall path o wd wd',
    git_Pull path o wd = (wd', Some NoErrAlreadyUpToDate) -> wd' = wd
}.

(** ** Configuration (main.go, lines 45-60 and 188-200) *)

(** What [yaml.Unmarshal] finds in the file: each key is present with a
    value of the field's type, or absent. *)
Record YamlDoc := {
  y_github_token : option string;
  y_github_user : option string;
  y_repos_dir : option string;
  y_poll_interval : option string;
  y_worker_count : option Z;
  y_queue_size : option Z
}.

(** The file at the [-config] path as [loadConfig] meets it: unreadable,
    not YAML for a [Config], or a document. *)
Inductive ConfigFile :=
| ReadFailed (e : ExtErr)
| UnmarshalFailed (e : ExtErr)
| Document (doc : YamlDoc).

(** [yaml.Unmarshal(data, &config)]: keys present overwrite the fields of
    the struct, absent keys leave them as they are. *)
Definition yaml_Unmarshal (doc : YamlDoc) (config : Config) : Config :=
  {| GithubToken := default (GithubToken config) (y_github_token doc);
     GithubUser := default (GithubUser config) (y_github_user doc);
     ReposDir := default (ReposDir config) (y_repos_dir doc);
     PollInterval := default (PollInterval config) (y_poll_interval doc);
     WorkerCount := default (WorkerCount config) (y_worker_count doc);
     WorkQueueSize := default (WorkQueueSize config) (y_queue_size doc) |}.

Definition loadConfig (file : ConfigFile) : ExtErr + Config :=
  match file with
  | ReadFailed e => inl e
  | UnmarshalFailed e => inl e
  | Document doc =>
      let config := {| GithubToken := ""; GithubUser := ""; ReposDir := "";
                       PollInterval := "";
                       WorkerCount := 5;
                       WorkQueueSize := 100 |} in
      inr (yaml_Unmarshal doc config)
  end.

(** The start of [main]: [log.Fatalf] ends the process, otherwise the
    service runs with the loaded configuration and the parsed interval. *)
Inductive Startup :=
| Fatal (line : LogLine)
| Serving (config : Config) (interval : Z).

Definition main_init {H : Host} (file : ConfigFile) : Startup :=
  match loadConfig file with
  | inl e => Fatal (LogFatalConfig e)
  | inr config =>
      match time_ParseDuration (PollInterval config) with
      | inl e => Fatal (LogFatalInterval e)
      | inr interval => Serving config interval
      end
  end.

(** ** The goroutines of the running service (main.go, lines 73-92,
    133-186 and 207-242) *)

(** The main goroutine: at its [select], after [cancel()], and gone.  When
    [main] returns the process ends and every goroutine with it; a panic in
    any goroutine ends the process as well. *)
Inductive MainState :=
| MSelect
| MCancelled
| MExited
| MPanicked.

(** The run-loop goroutine of lines 216-230. *)
Inductive LoopState :=
| LCheck      (* at the select of line 218 *)
| LSync       (* inside syncRepos *)
| LSleep      (* time.Sleep(interval) *)
| LReturned.

(** The activation of [syncRepos]: where it stands, with its locals. *)
Inductive OrchState :=
| OIdle
| OStart                                                  (* lines 134-151 *)
| OList (page : Z)                                        (* line 161 *)
| ORange (repos : list Repository) (next : Z)             (* line 168 *)
| OSend (t : RepoTask) (rest : list Repository) (next : Z) (* line 171 *)
| OWait                                                   (* line 184 *)
| OReturned (r : option GoErr).

(** A worker goroutine: at its [select], waiting for its rate limiter with
    a task in hand, inside [processRepo], back from it, or returned. *)
Inductive WorkerState :=
| WSelect
| WTick (t : RepoTask)
| WProc (t : RepoTask)
| WDone (t : RepoTask) (r : option GoErr)
| WExit.

Definition ListResponse : Type := ExtErr + (list Repository * Z).

Section Service.
Context {H : Host}.

(** The state of the process.  [st_queue], [st_closed] are [tasksChan],
    [st_counter] is the WaitGroup, [st_cancelled] the context, [st_sig] a
    signal waiting in [sigChan].  The [g_] fields are history kept for the
    proofs: the error of [os.MkdirAll], the list requests of the cycle with
    their answers, the tasks [wg.Add] was called for, and the tasks
    [wg.Done] was called for, with worker and result. *)
Record State := {
  st_main : MainState;
  st_loop : LoopState;
  st_sig : bool;
  st_cancelled : bool;
  st_errorChan : option GoErr;
  st_orch : OrchState;
  st_total : Z;
  st_workers : list WorkerState;
  st_queue : list RepoTask;
  st_closed : bool;
  st_counter : Z;
  st_world : World;
  st_log : list LogLine;
  g_mkdir : option ExtErr;
  g_requests : list (ListRequest * ListResponse);
  g_added : list RepoTask;
  g_done : list (nat * RepoTask * option GoErr)
}.

Definition set_main (v : MainState) (s : State) : State :=
  Build_State v (st_loop s) (st_sig s) (st_cancelled s) (st_errorChan s)
    (st_orch s) (st_total s) (st_workers s) (st_queue s) (st_closed s)
    (st_counter s) (st_world s) (st_log s) (g_mkdir s) (g_requests s)
    (g_added s) (g_done s).

Definition set_loop (v : LoopState) (s : State) : State :=
  Build_State (st_main s) v (st_sig s) (st_cancelled s) (st_errorChan s)
    (st_orch s) (st_total s) (st_workers s) (st_queue s) (st_closed s)
    (st_counter s) (st_world s) (st_log s) (g_mkdir s) (g_requests s)
    (g_added s) (g_done s).

Definition set_sig (v : bool) (s : State) : State :=
  Build_State (st_main s) (st_loop s) v (st_cancelled s) (st_errorChan s)
    (st_orch s) (st_total s) (st_workers s) (st_queue s) (st_closed s)
    (st_counter s) (st_world s) (st_log s) (g_mkdir s) (g_requests s)
    (g_added s) (g_done s).

Definition set_cancelled (v : bool) (s : State) : State :=
  Build_State (st_main s) (st_loop s) (st_sig s) v (st_errorChan s)
    (st_orch s) (st_total s) (st_workers s) (st_queue s) (st_closed s)
    (st_counter s) (st_world s) (st_log s) (g_mkdir s) (g_requests s)
    (g_added s) (g_done s).

Definition set_errorChan (v : option GoErr) (s : State) : State :=
  Build_State (st_main s) (st_loop s) (st_sig s) (st_cancelled s) v
    (st_orch s) (st_total s) (st_workers s) (st_queue s) (st_closed s)
    (st_counter s) (st_world s) (st_log s) (g_mkdir s) (g_requests s)
    (g_added s) (g_done s).

Definition set_orch (v : OrchState) (s : State) : State :=
  Build_State (st_main s) (st_loop s) (st_sig s) (st_cancelled s)
    (st_errorChan s) v (st_total s) (st_workers s) (st_queue s)
    (st_closed s) (st_counter s) (st_world s) (st_log s) (g_mkdir s)
    (g_requests s) (g_added s) (g_done s).

Definition set_total (v : Z) (s : State) : State :=
  Build_State (st_main s) (st_loop s) (st_sig s) (st_cancelled s)
    (st_errorChan s) (st_orch s) v (st_workers s) (st_queue s)
    (st_closed s) (st_counter s) (st_world s) (st_log s) (g_mkdir s)
    (g_requests s) (g_added s) (g_done s).

Definition set_workers (v : list WorkerState) (s : State) : State :=
  Build_State (st_main s) (st_loop s) (st_sig s) (st_cancelled s)
    (st_errorChan s) (st_orch s) (st_total s) v (st_queue s) (st_closed s)
    (st_counter s) (st_world s) (st_log s) (g_mkdir s) (g_requests s)
    (g_added s) (g_done s).

Definition set_queue (v : list RepoTask) (s : State) : State :=
  Build_State (st_main s) (st_loop s) (st_sig s) (st_cancelled s)
    (st_errorChan s) (st_orch s) (st_total s) (st_workers s) v
    (st_closed s) (st_counter s) (st_world s) (st_log s) (g_mkdir s)
    (g_requests s) (g_added s) (g_done s).

Definition set_closed (v : bool) (s : State) : State :=
  Build_State (st_main s) (st_loop s) (st_sig s) (st_cancelled s)
    (st_errorChan s) (st_orch s) (st_total s) (st_workers s) (st_queue s) v
    (st_counter s) (st_world s) (st_log s) (g_mkdir s) (g_requests s)
    (g_added s) (g_done s).

Definition set_counter (v : Z) (s : State) : State :=
  Build_State (st_main s) (st_loop s) (st_sig s) (st_cancelled s)
    (st_errorChan s) (st_orch s) (st_total s) (st_workers s) (st_queue s)
    (st_closed s) v (st_world s) (st_log s) (g_mkdir s) (g_requests s)
    (g_added s) (g_done s).

Definition set_world (v : World) (s : State) : State :=
  Build_State (st_main s) (st_loop s) (st_sig s) (st_cancelled s)
    (st_errorChan s) (st_orch s) (st_total s) (st_workers s) (st_queue s)
    (st_closed s) (st_counter s) v (st_log s) (g_mkdir s) (g_requests s)
    (g_added s) (g_done s).

Definition set_log (v : list LogLine) (s : State) : State :=
  Build_State (st_main s) (st_loop s) (st_sig s) (st_cancelled s)
    (st_errorChan s) (st_orch s) (st_total s) (st_workers s) (st_queue s)
    (st_closed s) (st_counter s) (st_world s) v (g_mkdir s) (g_requests s)
    (g_added s) (g_done s).

Definition set_gmkdir (v : option ExtErr) (s : State) : State :=
  Build_State (st_main s) (st_loop s) (st_sig s) (st_cancelled s)
    (st_errorChan s) (st_orch s) (st_total s) (st_workers s) (st_queue s)
    (st_closed s) (st_counter s) (st_world s) (st_log s) v (g_requests s)
    (g_added s) (g_done s).

Definition set_grequests (v : list (ListRequest * ListResponse)) (s : State)
    : State :=
  Build_State (st_main s) (st_loop s) (st_sig s) (st_cancelled s)
    (st_errorChan s) (st_orch s) (st_total s) (st_workers s) (st_queue s)
    (st_closed s) (st_counter s) (st_world s) (st_log s) (g_mkdir s) v
    (g_added s) (g_done s).

Definition set_gadded (v : list RepoTask) (s : State) : State :=
  Build_State (st_main s) (st_loop s) (st_sig s) (st_cancelled s)
    (st_errorChan s) (st_orch s) (st_total s) (st_workers s) (st_queue s)
    (st_closed s) (st_counter s) (st_world s) (st_log s) (g_mkdir s)
    (g_requests s) v (g_done s).

Definition set_gdone (v : list (nat * RepoTask * option GoErr)) (s : State)
    : State :=
  Build_State (st_main s) (st_loop s) (st_sig s) (st_cancelled s)
    (st_errorChan s) (st_orch s) (st_total s) (st_workers s) (st_queue s)
    (st_closed s) (st_counter s) (st_world s) (st_log s) (g_mkdir s)
    (g_requests s) (g_added s) v.

Definition logs (l : LogLine) (s : State) : State :=
  set_log (st_log s ++ [l]) s.

Definition init (w : World) : State :=
  {| st_main := MSelect; st_loop := LCheck; st_sig := false;
     st_cancelled := false; st_errorChan := None; st_orch := OIdle;
     st_total := 0; st_workers := []; st_queue := []; st_closed := false;
     st_counter := 0; st_world := w; st_log := [];
     g_mkdir := None; g_requests := []; g_added := []; g_done := [] |}.

(** The process is running: [main] has not returned and nothing panicked. *)
Definition alive (s : State) : bool :=
  match st_main s with
  | MExited | MPanicked => false
  | _ => true
  end.

(** Lines 169-174: the task for a listed repository. *)
Definition newTask (config : Config) (repo : Repository) : RepoTask :=
  {| Repo := repo;
     RepoPath := filepath_Join (ReposDir config) (Name repo) |}.

(** Lines 153-156 and 161: the list request for a page. *)
Definition listRequest (config : Config) (page : Z) : ListRequest :=
  {| lr_token := GithubToken config;
     lr_user := "";
     lr_opt := {| Visibility := "all"; PerPage := 100; Page := page |} |}.

(** Capacity of [make(chan RepoTask, config.WorkQueueSize)]. *)
Definition capacity (config : Config) : nat := Z.to_nat (WorkQueueSize config).

(** What moves next: the environment delivering a signal, or one goroutine
    taking the step it stands at.  Where Go's [select] may choose, each
    choice has its own label. *)
Inductive Label :=
| TSignal                 (* SIGINT or SIGTERM arrives *)
| TMainSig                (* main: case <-sigChan *)
| TMainErr                (* main: case err := <-errorChan *)
| TMainExit               (* main: log "Service stopped", return *)
| TLoop                   (* the run loop's next step *)
| TOrch                   (* syncRepos' next step *)
| THandoff (i : nat)      (* the send of line 171 meets worker i's receive *)
| TRecv (i : nat)         (* worker i: case task, ok := <-tasksChan, ok *)
| TClosed (i : nat)       (* worker i: the same case with !ok *)
| TCtxDone (i : nat)      (* worker i: case <-ctx.Done() *)
| TTick (i : nat)         (* worker i: <-w.rateLimiter.C *)
| TProcess (i : nat)      (* worker i: processRepo runs *)
| TFinish (i : nat).      (* worker i: log the error if any, wg.Done() *)

(** The main goroutine, lines 232-241.  A case of the [select] is taken in
    one step, the receive with the log line and [cancel()] that follow it
    (lines 233-235 and 236-238); the last log line and the return are the
    next step.  Nothing is stated of the states between the lines of one
    step. *)
Definition main_step (l : Label) (s : State) : option State :=
  match l, st_main s with
  | TMainSig, MSelect =>
      if st_sig s then
        Some (set_main MCancelled (set_cancelled true (set_sig false
                (logs LogShutdownSignal s))))
      else None
  | TMainErr, MSelect =>
      match st_errorChan s with
      | Some err =>
          Some (set_main MCancelled (set_cancelled true (set_errorChan None
                  (logs (LogSyncError err) s))))
      | None => None
      end
  | TMainExit, MCancelled =>
      Some (set_main MExited (logs LogServiceStopped s))
  | _, _ => None
  end.

(** The run loop, lines 216-230.  The send of line 223 and the return of
    line 224 are one step, and so are the log line of 226 and the start of
    the sleep of 227. *)
Definition loop_step (s : State) : option State :=
  match st_loop s with
  | LCheck =>
      if st_cancelled s then Some (set_loop LReturned s)
      else Some (set_loop LSync (set_orch OStart s))
  | LSync =>
      match st_orch s with
      | OReturned (Some err) =>
          match st_errorChan s with
          | None => Some (set_loop LReturned (set_errorChan (Some err) s))
          | Some _ => None
          end
      | OReturned None => Some (set_loop LSleep (logs LogSyncFinished s))
      | _ => None
      end
  | LSleep => Some (set_loop LCheck s)
  | LReturned => None
  end.

(** Lines 144-158: a new channel, a new WaitGroup, [WorkerCount] new
    workers at their [select], the page option unset and the total at 0.
    The workers of the cycle before hold the closed channel of that cycle
    and can only return; they are no longer followed.  The history of the
    cycle starts empty. *)
Definition start_cycle (config : Config) (s : State) : State :=
  set_orch (OList 0) (set_total 0
    (set_workers (replicate (Z.to_nat (WorkerCount config)) WSelect)
    (set_queue [] (set_closed false (set_counter 0
    (set_gmkdir None (set_grequests [] (set_gadded [] (set_gdone [] s))))))))).

(** One step of [syncRepos], lines 133-186.  [make] panics on a negative
    capacity.  A return after line 145 runs the deferred
    [close(tasksChan)]. *)
Definition syncRepos (config : Config) (s : State) : option State :=
  match st_orch s with
  | OIdle => None
  | OStart =>
      let '(w, err) := os_MkdirAll (ReposDir config) (st_world s) in
      match err with
      | Some e =>
          Some (set_orch (OReturned (Some (ErrMkdir e)))
                 (set_gmkdir (Some e) (set_world w s)))
      | None =>
          if bool_decide (WorkQueueSize config < 0) then
            Some (set_main MPanicked (set_world w s))
          else Some (start_cycle config (set_world w s))
      end
  | OList page =>
      let req := listRequest config page in
      match Repositories_List req (st_world s) with
      | inl e =>
          Some (set_orch (OReturned (Some (ErrList e)))
                 (set_closed true
                 (set_grequests (g_requests s ++ [(req, inl e)]) s)))
      | inr (repos, next) =>
          Some (set_orch (ORange repos next)
                 (set_total (st_total s + Z.of_nat (length repos))
                 (set_grequests (g_requests s ++ [(req, inr (repos, next))]) s)))
      end
  | ORange (repo :: rest) next =>
      let t := newTask config repo in
      Some (set_orch (OSend t rest next)
             (set_counter (st_counter s + 1)
             (set_gadded (g_added s ++ [t]) s)))
  | ORange [] next =>
      if bool_decide (next = 0) then
        Some (set_orch OWait (logs (PrintFound (st_total s)) s))
      else Some (set_orch (OList next) s)
  | OSend t rest next =>
      if bool_decide (length (st_queue s) < capacity config)%nat then
        Some (set_orch (ORange rest next) (set_queue (st_queue s ++ [t]) s))
      else None
  | OWait =>
      if bool_decide (st_counter s = 0) then
        Some (set_orch (OReturned None) (set_closed true s))
      else None
  | OReturned _ => None
  end.

(** The send of line 171 handing its task directly to worker [i], which
    stands at its [select]: the only way a send completes on a channel of
    capacity 0, and possible on any channel whose buffer is empty. *)
Definition handoff_step (i : nat) (s : State) : option State :=
  match st_orch s, st_queue s, st_workers s !! i with
  | OSend t rest next, [], Some WSelect =>
      Some (set_orch (ORange rest next)
             (set_workers (<[i := WTick t]> (st_workers s)) s))
  | _, _, _ => None
  end.

(** One step of the goroutine of [Worker.start], lines 73-92, for worker
    [i]. *)
Definition Worker_start (config : Config) (l : Label) (i : nat) (s : State)
    : option State :=
  match l, st_workers s !! i with
  | TRecv _, Some WSelect =>
      match st_queue s with
      | t :: q =>
          Some (set_queue q (set_workers (<[i := WTick t]> (st_workers s)) s))
      | [] => None
      end
  | TClosed _, Some WSelect =>
      match st_queue s with
      | [] =>
          if st_closed s then
            Some (set_workers (<[i := WExit]> (st_workers s)) s)
          else None
      | _ :: _ => None
      end
  | TCtxDone _, Some WSelect =>
      if st_cancelled s then
        Some (set_workers (<[i := WExit]> (st_workers s)) s)
      else None
  | TTick _, Some (WTick t) =>
      Some (set_workers (<[i := WProc t]> (st_workers s)) s)
  | TProcess _, Some (WProc t) =>
      let o := update i config t (st_world s) in
      Some (set_world (out_world o)
             (set_log (st_log s ++ out_log o)
             (set_workers (<[i := WDone t (out_err o)]> (st_workers s)) s)))
  | TFinish _, Some (WDone t r) =>
      let s1 := match r with
                | Some err => logs (LogWorkerError i (Name (Repo t)) err) s
                | None => s
                end in
      Some (set_counter (st_counter s1 - 1)
             (set_gdone (g_done s1 ++ [(i, t, r)])
             (set_workers (<[i := WSelect]> (st_workers s1)) s1)))
  | _, _ => None
  end.

(** One step of the process.  Nothing moves once the process has ended. *)
Definition exec (config : Config) (l : Label) (s : State) : option State :=
  if alive s then
    match l with
    | TSignal => Some (set_sig true s)
    | TMainSig | TMainErr | TMainExit => main_step l s
    | TLoop => loop_step s
    | TOrch => syncRepos config s
    | THandoff i => handoff_step i s
    | TRecv i | TClosed i | TCtxDone i | TTick i | TProcess i | TFinish i =>
        Worker_start config l i s
    end
  else None.

(** A schedule run from a state; [None] when a step is not enabled. *)
Fixpoint run (config : Config) (ls : list Label) (s : State) : option State :=
  match ls with
  | [] => Some s
  | l :: ls' =>
      match exec config l s with
      | Some s' => run config ls' s'
      | None => None
      end
  end.

(** The states the service can be in, started on world [w]. *)
Inductive reachable (config : Config) (w : World) : State -> Prop :=
| reach_init : reachable config w (init w)
| reach_step s l s' :
    reachable config w s -> exec config l s = Some s' ->
    reachable config w s'.

(** ** What the state says about the tasks of the cycle *)

(** The task a worker holds between its receive and its [wg.Done]. *)
Definition held (ws : WorkerState) : list RepoTask :=
  match ws with
  | WTick t | WProc t | WDone t _ => [t]
  | WSelect | WExit => []
  end.

Definition in_flight (s : State) : list RepoTask :=
  concat (map held (st_workers s)).

(** The task [wg.Add] was called for and the send has not completed. *)
Definition pending (s : State) : list RepoTask :=
  match st_orch s with
  | OSend t _ _ => [t]
  | _ => []
  end.

Definition finished (s : State) : list RepoTask :=
  map (fun d => snd (fst d)) (g_done s).

(** The return value of a cycle read off its history: the error of
    [os.MkdirAll], else the error of the first list request that failed,
    else [nil]. *)
Fixpoint first_list_error (requests : list (ListRequest * ListResponse))
    : option GoErr :=
  match requests with
  | [] => None
  | (_, inl e) :: _ => Some (ErrList e)
  | (_, inr _) :: rest => first_list_error rest
  end.

Definition cycle_error (mkdir : option ExtErr)
    (requests : list (ListRequest * ListResponse)) : option GoErr :=
  match mkdir with
  | Some e => Some (ErrMkdir e)
  | None => first_list_error requests
  end.

End Service.

(** ** Pagination as the listing API serves it

    Page [p] of an account holding [all], [perPage] entries to a page; page
    0 is page 1.  [NextPage] is 0 on the last page. *)
Definition github_page (all : list Repository) (perPage page : Z)
    : list Repository * Z :=
  let p := Z.max page 1 in
  let items := take (Z.to_nat perPage) (drop (Z.to_nat ((p - 1) * perPage)) all) in
  (items, if bool_decide (p * perPage < Z.of_nat (length all)) then p + 1 else 0).

(** ** A simulated host

    Enough of a file system, of git and of the hosting service to run the
    service on: local directories, each plain or a clone at some revision of
    its origin; remote repositories by clone URL with their head revision;
    the repositories listed for the owner of the token and for named users;
    the pages whose listing fails; the paths the process may not touch. *)
Module Sim.

Inductive Entry :=
| PlainDir
| Mirror (origin : string) (rev : nat) (diverged : bool).

Record SimWorld := {
  sim_fs : list (string * Entry);
  sim_remote : list (string * nat);
  sim_owner : list Repository;
  sim_users : list (string * list Repository);
  sim_failing_pages : list Z;
  sim_denied : list string
}.

Fixpoint assoc {A} (k : string) (l : list (string * A)) : option A :=
  match l with
  | [] => None
  | (k', v) :: rest => if bool_decide (k = k') then Some v else assoc k rest
  end.

Fixpoint store {A} (k : string) (v : A) (l : list (string * A))
    : list (string * A) :=
  match l with
  | [] => [(k, v)]
  | (k', v') :: rest =>
      if bool_decide (k = k') then (k, v) :: rest else (k', v') :: store k v rest
  end.

Definition with_fs (fs : list (string * Entry)) (w : SimWorld) : SimWorld :=
  {| sim_fs := fs; sim_remote := sim_remote w; sim_owner := sim_owner w;
     sim_users := sim_users w; sim_failing_pages := sim_failing_pages w;
     sim_denied := sim_denied w |}.

Definition denied (path : string) (w : SimWorld) : bool :=
  bool_decide (path ∈ sim_denied w).

Definition Stat (path : string) (w : SimWorld) : option ExtErr :=
  if denied path w then Some (ErrOther "permission denied")
  else match assoc path (sim_fs w) with
       | Some _ => None
       | None => Some ErrNotExist
       end.

Definition MkdirAll (path : string) (w : SimWorld) : SimWorld * option ExtErr :=
  if denied path w then (w, Some (ErrOther "permission denied"))
  else match assoc path (sim_fs w) with
       | Some _ => (w, None)
       | None => (with_fs (store path PlainDir (sim_fs w)) w, None)
       end.

Definition PlainClone (path : string) (o : CloneOptions) (w : SimWorld)
    : SimWorld * option ExtErr :=
  if denied path w then (w, Some (ErrOther "permission denied"))
  else match assoc (URL o) (sim_remote w) with
       | Some head =>
           (with_fs (store path (Mirror (URL o) head false) (sim_fs w)) w, None)
       | None => (w, Some (ErrOther "repository not found"))
       end.

Definition PlainOpen (path : string) (w : SimWorld) : option ExtErr :=
  if denied path w then Some (ErrOther "permission denied")
  else match assoc path (sim_fs w) with
       | Some (Mirror _ _ _) => None
       | _ => Some (ErrOther "repository does not exist")
       end.

Definition Worktree (path : string) (w : SimWorld) : option ExtErr := None.

(** A pull answers "already up to date" when the origin's head is the local
    revision, refuses when local history has diverged from a moved origin,
    and fast-forwards otherwise. *)
Definition Pull (path : string) (o : PullOptions) (w : SimWorld)
    : SimWorld * option ExtErr :=
  if denied path w then (w, Some (ErrOther "permission denied"))
  else match assoc path (sim_fs w) with
       | Some (Mirror origin rev diverged) =>
           match assoc origin (sim_remote w) with
           | Some head =>
               if bool_decide (head = rev) then (w, Some NoErrAlreadyUpToDate)
               else if diverged then (w, Some ErrNonFastForwardUpdate)
               else (with_fs (store path (Mirror origin head false) (sim_fs w)) w,
                     None)
           | None => (w, Some (ErrOther "repository not found"))
           end
       | _ => (w, Some (ErrOther "repository does not exist"))
       end.

Definition List (req : ListRequest) (w : SimWorld)
    : ExtErr + (list Repository * Z) :=
  if bool_decide (Page (lr_opt req) ∈ sim_failing_pages w) then
    inl (ErrOther "service unavailable")
  else
    let all := if bool_decide (lr_user req = "") then sim_owner w
               else default [] (assoc (lr_user req) (sim_users w)) in
    inr (github_page all (PerPage (lr_opt req)) (Page (lr_opt req))).

Definition Join (dir name : string) : string := dir +:+ "/" +:+ name.

(** [time.ParseDuration] on durations without a fractional part: an
    optional sign, then one or more of digits followed by a unit.  A "."
    is refused here; Go accepts it and computes with floating point. *)
Definition digit (c : ascii) : option Z :=
  let n := Z.of_nat (nat_of_ascii c) in
  if bool_decide (48 <= n <= 57) then Some (n - 48) else None.

Fixpoint leadingInt (s : string) (acc : Z) (seen : bool) : Z * string * bool :=
  match s with
  | String c rest =>
      match digit c with
      | Some d => leadingInt rest (acc * 10 + d) true
      | None => (acc, s, seen)
      end
  | EmptyString => (acc, s, seen)
  end.

Fixpoint leadingUnit (s : string) : string * string :=
  match s with
  | String c rest =>
      if bool_decide (c = "."%char) || bool_decide (is_Some (digit c)) then ("", s)
      else let '(u, r) := leadingUnit rest in (String c u, r)
  | EmptyString => ("", s)
  end.

Definition unitMap (u : string) : option Z :=
  if bool_decide (u = "ns") then Some 1
  else if bool_decide (u = "us") then Some 1000
  else if bool_decide (u = "ms") then Some 1000000
  else if bool_decide (u = "s") then Some 1000000000
  else if bool_decide (u = "m") then Some 60000000000
  else if bool_decide (u = "h") then Some 3600000000000
  else None.

Fixpoint components (fuel : nat) (s : string) (d : Z) : option Z :=
  match fuel with
  | O => None
  | S fuel' =>
      match s with
      | EmptyString => Some d
      | _ =>
          let '(v, s1, seen) := leadingInt s 0 false in
          if negb seen then None
          else
            let '(u, s2) := leadingUnit s1 in
            match unitMap u with
            | Some unit => components fuel' s2 (d + v * unit)
            | None => None
            end
      end
  end.

Definition ParseDuration (orig : string) : ExtErr + Z :=
  let invalid := inl (ErrOther "time: invalid duration") in
  let '(neg, s) :=
    match orig with
    | String "-" rest => (true, rest)
    | String "+" rest => (false, rest)
    | _ => (false, orig)
    end in
  if bool_decide (s = "0") then inr 0
  else if bool_decide (s = "") then invalid
  else match components (S (String.length s)) s 0 with
       | Some d =>
           if neg then (if bool_decide (d <= 2 ^ 63) then inr (- d) else invalid)
           else (if bool_decide (d <= 2 ^ 63 - 1) then inr d else invalid)
       | None => invalid
       end.

#[export] Instance host : Host := {|
  World := SimWorld;
  os_Stat := Stat;
  os_MkdirAll := MkdirAll;
  git_PlainClone := PlainClone;
  git_PlainOpen := PlainOpen;
  git_Worktree := Worktree;
  git_Pull := Pull;
  Repositories_List := List;
  filepath_Join := Join;
  time_ParseDuration := ParseDuration
|}.

End Sim.

(** ** Invariants of the running service *)
Section Invariants.
Context {H : Host}.

(** The tasks counted by the WaitGroup and not yet done: the one being
    sent, those in the channel, those a worker holds. *)
Definition outstanding (s : State) : list RepoTask :=
  pending s ++ st_queue s ++ in_flight s.

(** No activation of [syncRepos] is running. *)
Definition idle (o : OrchState) : Prop :=
  match o with
  | OIdle | OReturned _ => True
  | _ => False
  end.

(** Bookkeeping of the WaitGroup: every task [wg.Add] was called for is
    either done, once, or outstanding, once; the counter is the number of
    [Add]s less the number of [Done]s; a cycle that returned [nil] left the
    counter at zero; [syncRepos] runs only while the run loop is in it. *)
Record accounted (s : State) : Prop := {
  acc_tasks : g_added s ≡ₚ finished s ++ outstanding s;
  acc_counter :
    st_counter s = Z.of_nat (length (g_added s)) - Z.of_nat (length (g_done s));
  acc_returned : st_orch s = OReturned None -> st_counter s = 0;
  acc_loop : st_loop s <> LSync -> idle (st_orch s)
}.

(** The errors [processRepo] can return. *)
Definition is_task_error (e : GoErr) : Prop :=
  match e with
  | ErrClone _ | ErrOpen _ | ErrWorktree _ | ErrPull _ => True
  | ErrMkdir _ | ErrList _ => False
  end.

(** [syncRepos] is past line 151 and has not returned. *)
Definition listing (o : OrchState) : Prop :=
  match o with
  | OList _ | ORange _ _ | OSend _ _ _ | OWait => True
  | OIdle | OStart | OReturned _ => False
  end.

(** What a cycle reports: while it lists nothing has failed; what it
    returns is read off its history; every task error is in the log, and
    is an error of the updater. *)
Record reported (s : State) : Prop := {
  rep_listing :
    listing (st_orch s) -> cycle_error (g_mkdir s) (g_requests s) = None;
  rep_returned :
    forall r, st_orch s = OReturned r ->
      r = cycle_error (g_mkdir s) (g_requests s);
  rep_logged :
    forall i t e, (i, t, Some e) ∈ g_done s ->
      LogWorkerError i (Name (Repo t)) e ∈ st_log s;
  rep_done :
    forall i t e, (i, t, Some e) ∈ g_done s -> is_task_error e;
  rep_held :
    forall i t e, st_workers s !! i = Some (WDone t (Some e)) ->
      is_task_error e
}.

(** The configuration with another account identifier. *)
Definition with_user (user : string) (config : Config) : Config :=
  {| GithubToken := GithubToken config; GithubUser := user;
     ReposDir := ReposDir config; PollInterval := PollInterval config;
     WorkerCount := WorkerCount config;
     WorkQueueSize := WorkQueueSize config |}.

(** The pages asked for in the cycle, in order. *)
Definition requested (s : State) : list Z :=
  map (fun p => Page (lr_opt (fst p))) (g_requests s).

(** The page asked for after [k] pages were fetched: the option is unset
    for the first request, and [NextPage] after page [k] is [k + 1]. *)
Definition page_after (k : nat) : Z :=
  match k with
  | O => 0
  | S _ => Z.of_nat k + 1
  end.

Definition pages (k : nat) : list Z := map page_after (seq 0 k).

(** The listing answers as an account holding [all] does, in every state
    the service reaches from world [w]. *)
Definition served (config : Config) (all : list Repository) (w : World)
    : Prop :=
  forall s page, reachable config w s ->
    Repositories_List (listRequest config page) (st_world s)
      = inr (github_page all 100 page).

(** Where [syncRepos] stands in an account of [all] served in pages of
    100: [k] pages fetched, [j] repositories taken from them. *)
Definition paged (config : Config) (all : list Repository) (s : State)
    : Prop :=
  let n := length all in
  match st_orch s with
  | OList page =>
      exists k : nat,
        page = page_after k /\
        requested s = pages k /\
        g_added s = map (newTask config) (take (k * 100) all) /\
        st_total s = Z.of_nat (length (take (k * 100) all)) /\
        (k = 0 \/ k * 100 < n)%nat
  | ORange rest next | OSend _ rest next =>
      exists k j : nat,
        (1 <= k)%nat /\
        requested s = pages k /\
        g_added s = map (newTask config) (take j all) /\
        rest = drop j (take (k * 100) all) /\
        (j <= length (take (k * 100) all))%nat /\
        st_total s = Z.of_nat (length (take (k * 100) all)) /\
        next = (if bool_decide (k * 100 < n)%nat then Z.of_nat k + 1 else 0) /\
        (k = 1 \/ (k - 1) * 100 < n)%nat
  | OWait | OReturned None =>
      exists k : nat,
        (1 <= k)%nat /\
        requested s = pages k /\
        g_added s = map (newTask config) all /\
        st_total s = Z.of_nat n /\
        (n <= k * 100)%nat /\
        (k = 1 \/ (k - 1) * 100 < n)%nat /\
        PrintFound (Z.of_nat n) ∈ st_log s
  | OIdle | OStart | OReturned (Some _) => True
  end.

(** A state from which a task can be seen through without waiting for
    anyone: the process runs, the channel is empty, worker 0 stands at its
    [select] and nothing is outstanding. *)
Record quiet (s : State) : Prop := {
  q_main : st_main s = MSelect;
  q_queue : st_queue s = [];
  q_worker : st_workers s !! 0%nat = Some WSelect;
  q_counter : st_counter s = 0
}.

(** [wg.Add], the send straight into the hands of worker 0, its tick,
    [processRepo] and [wg.Done]. *)
Definition task_round : list Label :=
  [TOrch; THandoff 0; TTick 0; TProcess 0; TFinish 0].

End Invariants.

(** ** More of what the state says, and more invariants *)
Section MoreInvariants.
Context {H : Host}.

(** The repositories of an answer to a list request; none when it failed. *)
Definition answered (resp : ListResponse) : list Repository :=
  match resp with
  | inr (repos, _) => repos
  | inl _ => []
  end.

(** The repositories of all the pages received in the cycle, in order. *)
Definition listed (s : State) : list Repository :=
  concat (map (fun p => answered (snd p)) (g_requests s)).

(** The [NextPage] of every page received in the cycle, in order. *)
Definition next_page (p : ListRequest * ListResponse) : option Z :=
  match snd p with
  | inr (_, next) => Some next
  | inl _ => None
  end.

Definition nexts (s : State) : list Z := omap next_page (g_requests s).

(** The repositories of the current page the loop of line 168 has still to
    take. *)
Definition remaining (o : OrchState) : list Repository :=
  match o with
  | ORange rest _ | OSend _ rest _ => rest
  | _ => []
  end.

(** The run loop stands between two cycles. *)
Definition between_cycles (l : LoopState) : Prop :=
  match l with
  | LCheck | LSleep => True
  | LSync | LReturned => False
  end.

(** How the run loop and [syncRepos] go together: between two cycles
    [syncRepos] has not been entered or has returned [nil], and then, as
    when a cycle is just entered, the WaitGroup stands at zero; the buffer
    of [errorChan] is empty as long as the run loop runs. *)
Record sequenced (s : State) : Prop := {
  seq_between :
    between_cycles (st_loop s) ->
    st_orch s = OIdle \/ st_orch s = OReturned None;
  seq_idle : st_orch s = OIdle -> st_counter s = 0;
  seq_start : st_orch s = OStart -> st_counter s = 0;
  seq_error : st_loop s <> LReturned -> st_errorChan s = None
}.

(** The pages asked for follow the answers: the unset page first, then the
    [NextPage] of each answer as long as it is not 0. *)
Definition chained (s : State) : Prop :=
  let nz := Forall (fun n : Z => n <> 0) in
  match st_orch s with
  | OList page => nz (nexts s) /\ requested s ++ [page] = 0 :: nexts s
  | ORange _ next | OSend _ _ next =>
      exists ns, nexts s = ns ++ [next] /\ nz ns /\ requested s = 0 :: ns
  | OWait | OReturned None =>
      exists ns, nexts s = ns ++ [0] /\ nz ns /\ requested s = 0 :: ns
  | OReturned (Some (ErrList _)) => nz (nexts s) /\ requested s = 0 :: nexts s
  | OIdle | OStart | OReturned (Some _) => True
  end.

(** The path a call is about. *)
Definition call_path (c : Call) : string :=
  match c with
  | CallStat path _ | CallPlainClone path _ _ | CallPlainOpen path _
  | CallWorktree path _ | CallPull path _ _ => path
  end.

(** What becomes of the error of a cycle: an error in the buffer of
    [errorChan], or in a line "Error during sync" of the log, is the error
    [syncRepos] returned. *)
Record handed_over (s : State) : Prop := {
  ho_chan :
    forall e, st_errorChan s = Some e -> st_orch s = OReturned (Some e);
  ho_logged :
    forall e, LogSyncError e ∈ st_log s -> st_orch s = OReturned (Some e)
}.

(** A worker has returned only when its channel was closed or the context
    cancelled. *)
Definition told (s : State) : Prop :=
  forall i, st_workers s !! i = Some WExit ->
    st_closed s = true \/ st_cancelled s = true.

End MoreInvariants.

(** ** The sequential variant of the service

    The second [main] package of the repository: no workers, no channel,
    no credential on clone and pull, one list request for the configured
    user, and a run loop that goes on after an error. *)
Module Sequential.

Record Config := {
  GithubToken : string;
  GithubUser : string;
  ReposDir : string;
  PollInterval : string
}.

(** The lines this variant logs; one constructor per format string. *)
Inductive Line :=
| LogCloning (name : string)
| LogPulling (name : string)
| LogUpToDate (name : string)
| LogRepoError (name : string) (e : GoErr)
| LogSyncError (e : GoErr).

(** The calls this variant makes, each with the answer it got. *)
Inductive Call :=
| CallMkdirAll (path : string) (err : option ExtErr)
| CallList (token user : string) (res : ExtErr + list Repository)
| CallStat (path : string) (err : option ExtErr)
| CallPlainClone (path url : string) (err : option ExtErr)
| CallPlainOpen (path : string) (err : option ExtErr)
| CallWorktree (path : string) (err : option ExtErr)
| CallPull (path : string) (err : option ExtErr).

(** What this variant calls and does not define: clone options carry the
    URL only, pull options are empty, and the list options are [nil]. *)
Class Host := {
  World : Type;
  os_Stat : string -> World -> option ExtErr;
  os_MkdirAll : string -> World -> World * option ExtErr;
  git_PlainClone : string -> string -> World -> World * option ExtErr;
  git_PlainOpen : string -> World -> option ExtErr;
  git_Worktree : string -> World -> option ExtErr;
  git_Pull : string -> World -> World * option ExtErr;
  Repositories_List : string -> string -> World -> ExtErr + list Repository;
  filepath_Join : string -> string -> string
}.

Section Variant.
Context {H : Host}.

Record Run := {
  run_world : World;
  run_log : list Line;
  run_calls : list Call
}.

Definition Go (A : Type) : Type := Run -> Run * (GoErr + A).

Definition ret {A} (a : A) : Go A := fun r => (r, inr a).
Definition throw {A} (e : GoErr) : Go A := fun r => (r, inl e).
Definition bind {A B} (m : Go A) (k : A -> Go B) : Go B :=
  fun r =>
    match m r with
    | (r', inl e) => (r', inl e)
    | (r', inr a) => k a r'
    end.

(** [if err := m; err != nil { ... }]: the error of [m] as a value. *)
Definition attempt {A} (m : Go A) : Go (option GoErr) :=
  fun r =>
    match m r with
    | (r', inl e) => (r', inr (Some e))
    | (r', inr _) => (r', inr None)
    end.

Definition logf (l : Line) : Go unit :=
  fun r => ({| run_world := run_world r;
               run_log := run_log r ++ [l];
               run_calls := run_calls r |}, inr tt).

Definition perform {R} (f : World -> World * R) (c : R -> Call) : Go R :=
  fun r =>
    let '(w, res) := f (run_world r) in
    ({| run_world := w;
        run_log := run_log r;
        run_calls := run_calls r ++ [c res] |}, inr res).

Definition observe {R} (f : World -> R) (c : R -> Call) : Go R :=
  perform (fun w => (w, f w)) c.

Definition start (w : World) : Run :=
  {| run_world := w; run_log := []; run_calls := [] |}.

Local Notation "x <~ m ;; k" := (bind m (fun x => k))
  (at level 92, m at next level, right associativity).
Local Notation "m ~;; k" := (bind m (fun _ => k))
  (at level 92, right associativity).

Definition check (wrap : ExtErr -> GoErr) (err : option ExtErr) : Go unit :=
  match err with
  | Some e => throw (wrap e)
  | None => ret tt
  end.

(** [updateRepo], part_001 lines 39-68. *)
Definition updateRepo (repoPath : string) (repo : Repository) : Go unit :=
  err <~ observe (os_Stat repoPath) (CallStat repoPath) ;;
  if os_IsNotExist err then
    logf (LogCloning (Name repo)) ~;;
    err <~ perform (git_PlainClone repoPath (CloneURL repo))
             (CallPlainClone repoPath (CloneURL repo)) ;;
    check ErrClone err
  else
    logf (LogPulling (Name repo)) ~;;
    err <~ observe (git_PlainOpen repoPath) (CallPlainOpen repoPath) ;;
    check ErrOpen err ~;;
    err <~ observe (git_Worktree repoPath) (CallWorktree repoPath) ;;
    check ErrWorktree err ~;;
    err <~ perform (git_Pull repoPath) (CallPull repoPath) ;;
    if err_is err NoErrAlreadyUpToDate then logf (LogUpToDate (Name repo))
    else check ErrPull err.

(** The loop of lines 87-92 over the repositories listed. *)
Fixpoint range (config : Config) (repos : list Repository) : Go unit :=
  match repos with
  | [] => ret tt
  | repo :: rest =>
      let repoPath := filepath_Join (ReposDir config) (Name repo) in
      err <~ attempt (updateRepo repoPath repo) ;;
      match err with
      | Some e => logf (LogRepoError (Name repo) e)
      | None => ret tt
      end ~;;
      range config rest
  end.

(** [syncRepos], lines 70-95. *)
Definition syncRepos (config : Config) : Go unit :=
  err <~ perform (os_MkdirAll (ReposDir config))
           (CallMkdirAll (ReposDir config)) ;;
  check ErrMkdir err ~;;
  res <~ observe (Repositories_List (GithubToken config) (GithubUser config))
           (CallList (GithubToken config) (GithubUser config)) ;;
  match res with
  | inl e => throw (ErrList e)
  | inr repos => range config repos
  end.

(** The first [n] rounds of the loop of [main], lines 115-120; the sleep
    between two rounds is left out. *)
Fixpoint main_loop (n : nat) (config : Config) : Go unit :=
  match n with
  | O => ret tt
  | S n' =>
      err <~ attempt (syncRepos config) ;;
      match err with
      | Some e => logf (LogSyncError e)
      | None => ret tt
      end ~;;
      main_loop n' config
  end.

(** The paths the existence check was made on, the directories created and
    the list requests made, read off the calls. *)
Definition stat_path (c : Call) : option string :=
  match c with
  | CallStat path _ => Some path
  | _ => None
  end.

Definition mkdir_path (c : Call) : option string :=
  match c with
  | CallMkdirAll path _ => Some path
  | _ => None
  end.

Definition list_user (c : Call) : option string :=
  match c with
  | CallList _ user _ => Some user
  | _ => None
  end.

(** The errors of the updates that failed, read off the log. *)
Definition repo_error (l : Line) : option (string * GoErr) :=
  match l with
  | LogRepoError name e => Some (name, e)
  | _ => None
  end.

(** The errors of the cycles that failed, read off the log. *)
Definition sync_error (l : Line) : option GoErr :=
  match l with
  | LogSyncError e => Some e
  | _ => None
  end.

End Variant.
End Sequential.

(** ** Scenarios on the simulated host *)

(** The state a schedule leads to from the start of the service; the start
    itself when the schedule cannot be run. *)
Definition state_after {H : Host} (config : Config) (ls : list Label)
    (w : World) : State :=
  default (init w) (run config ls (init w)).

Module Scenario.
Import Sim.

Definition cfg : Config :=
  {| GithubToken := "tok"; GithubUser := "alice"; ReposDir := "/repos";
     PollInterval := "1h"; WorkerCount := 2; WorkQueueSize := 100 |}.

Definition repo (name : string) : Repository :=
  {| Name := name; CloneURL := "https://host/" +:+ name +:+ ".git" |}.

(** Two repositories listed; the clone URL of the second is not served. *)
Definition one_unreachable : SimWorld :=
  {| sim_fs := [];
     sim_remote := [(CloneURL (repo "good"), 3%nat)];
     sim_owner := [repo "good"; repo "bad"];
     sim_users := [];
     sim_failing_pages := [];
     sim_denied := [] |}.

(** One cycle: both tasks enqueued, each taken by a worker, both
    processed, the cycle returns and the run loop goes to sleep. *)
Definition one_cycle : list Label :=
  [TLoop; TOrch; TOrch; TOrch; TOrch; TOrch; TOrch; TOrch;
   TRecv 0; TRecv 1; TTick 0; TTick 1; TProcess 0; TProcess 1;
   TFinish 0; TFinish 1; TOrch; TLoop].

End Scenario.

(** ** Configuration files *)
Module ConfigFiles.

(** Every key present; no workers, a channel without buffer and a zero
    interval. *)
Definition zeros : YamlDoc :=
  {| y_github_token := Some "tok"; y_github_user := Some "alice";
     y_repos_dir := Some "/repos"; y_poll_interval := Some "0s";
     y_worker_count := Some 0; y_queue_size := Some 0 |}.

(** Only the interval present. *)
Definition interval_only : YamlDoc :=
  {| y_github_token := None; y_github_user := None;
     y_repos_dir := None; y_poll_interval := Some "1h";
     y_worker_count := None; y_queue_size := None |}.

(** Everything but the interval present. *)
Definition no_interval : YamlDoc :=
  {| y_github_token := Some "tok"; y_github_user := Some "alice";
     y_repos_dir := Some "/repos"; y_poll_interval := None;
     y_worker_count := Some 3; y_queue_size := Some 10 |}.

End ConfigFiles.

(** ** Worlds for the updater *)
Module Mirrors.
Import Sim.

Definition task : RepoTask :=
  newTask (H := Sim.host) Scenario.cfg (Scenario.repo "good").

(** Nothing cloned yet, the remote reachable. *)
Definition fresh : SimWorld := Scenario.one_unreachable.

(** Nothing cloned yet and the clone URL not served. *)
Definition unreachable : SimWorld :=
  {| sim_fs := []; sim_remote := []; sim_owner := [Scenario.repo "good"];
     sim_users := []; sim_failing_pages := []; sim_denied := [] |}.

(** A mirror with local commits whose origin has moved on. *)
Definition diverged : SimWorld :=
  {| sim_fs := [("/repos/good", Mirror (CloneURL (Scenario.repo "good")) 2 true)];
     sim_remote := [(CloneURL (Scenario.repo "good"), 3%nat)];
     sim_owner := [Scenario.repo "good"];
     sim_users := []; sim_failing_pages := []; sim_denied := [] |}.

(** A path the process may not look into. *)
Definition forbidden : SimWorld :=
  {| sim_fs := [("/repos/good", Mirror (CloneURL (Scenario.repo "good")) 3 false)];
     sim_remote := [(CloneURL (Scenario.repo "good"), 3%nat)];
     sim_owner := [Scenario.repo "good"];
     sim_users := []; sim_failing_pages := [];
     sim_denied := ["/repos/good"] |}.

End Mirrors.

(** ** An account of 150 repositories *)
Module Account150.
Import Sim.

Definition repos : list Repository :=
  map (fun i : nat => Scenario.repo ("r" +:+ pretty i)) (seq 0 150).

Definition world : SimWorld :=
  {| sim_fs := [];
     sim_remote := map (fun r => (CloneURL r, 1%nat)) repos;
     sim_owner := repos;
     sim_users := [];
     sim_failing_pages := [];
     sim_denied := [] |}.

(** [wg.Add] and the send for one repository, then worker 0 takes the task
    and sees it through. *)
Definition one_task : list Label :=
  [TOrch; TOrch; TRecv 0; TTick 0; TProcess 0; TFinish 0].

(** A whole cycle: the first page and its 100 tasks, the second page and
    its 50, the wait, the return, and the run loop going to sleep. *)
Definition cycle : list Label :=
  [TLoop; TOrch; TOrch] ++ concat (replicate 100 one_task) ++
  [TOrch; TOrch] ++ concat (replicate 50 one_task) ++
  [TOrch; TOrch; TLoop].

End Account150.

(** ** The owner of the token and another account *)
Module Accounts.
Import Sim.

(** The token's owner has one repository; the account named in the
    configuration, alice, has another. *)
Definition world : SimWorld :=
  {| sim_fs := [];
     sim_remote := [(CloneURL (Scenario.repo "mine"), 1%nat);
                    (CloneURL (Scenario.repo "hers"), 1%nat)];
     sim_owner := [Scenario.repo "mine"];
     sim_users := [("alice", [Scenario.repo "hers"])];
     sim_failing_pages := [];
     sim_denied := [] |}.

Definition cycle : list Label :=
  [TLoop; TOrch; TOrch] ++ Account150.one_task ++ [TOrch; TOrch; TLoop].

End Accounts.

(** ** The second page of the listing fails *)
Module ListFailure.
Import Sim.

Definition world : SimWorld :=
  {| sim_fs := [];
     sim_remote := sim_remote Account150.world;
     sim_owner := Account150.repos;
     sim_users := [];
     sim_failing_pages := [2];
     sim_denied := [] |}.

(** The first page arrives and its 100 tasks are sent while no worker has
    taken one yet; the request for page 2 fails and [syncRepos] returns. *)
Definition until_return : list Label :=
  [TLoop; TOrch; TOrch] ++ concat (replicate 100 [TOrch; TOrch]) ++
  [TOrch; TOrch].

(** The run loop hands the error to [main], which cancels and returns. *)
Definition until_exit : list Label :=
  until_return ++ [TLoop; TMainErr; TMainExit].

End ListFailure.

(** ** A signal in the middle of a cycle *)
Module Interrupt.

(** Both tasks are sent, worker 0 has taken the first and is inside
    [processRepo]; then the signal arrives, [main] cancels and returns. *)
Definition until_exit : list Label :=
  [TLoop; TOrch; TOrch; TOrch; TOrch; TOrch; TOrch;
   TRecv 0; TTick 0; TSignal; TMainSig; TMainExit].

End Interrupt.

(** ** Further scenarios *)

(** Whether a schedule can be run from the start of the service. *)
Definition runs {H : Host} (config : Config) (ls : list Label) (w : World)
    : bool :=
  match run config ls (init w) with
  | Some _ => true
  | None => false
  end.

(** The run loop wakes up after a first cycle and enters the second. *)
Module SecondCycle.

Definition entry : list Label := Scenario.one_cycle ++ [TLoop; TLoop].

End SecondCycle.

(** No workers configured: both tasks go into the channel and nobody takes
    them; [syncRepos] stands at its wait. *)
Module NoWorkers.

Definition cfg : Config :=
  {| GithubToken := "tok"; GithubUser := "alice"; ReposDir := "/repos";
     PollInterval := "1h"; WorkerCount := 0; WorkQueueSize := 100 |}.

Definition until_wait : list Label :=
  [TLoop; TOrch; TOrch; TOrch; TOrch; TOrch; TOrch; TOrch].

End NoWorkers.

(** A negative queue size in the configuration. *)
Module NegativeQueue.

Definition cfg : Config :=
  {| GithubToken := "tok"; GithubUser := "alice"; ReposDir := "/repos";
     PollInterval := "1h"; WorkerCount := 2; WorkQueueSize := -1 |}.

Definition until_make : list Label := [TLoop].

End NegativeQueue.

(** The middle of a cycle: both tasks sent, worker 0 inside [processRepo]
    with the first, the second in the channel. *)
Module Busy.

Definition mid_cycle : list Label :=
  [TLoop; TOrch; TOrch; TOrch; TOrch; TOrch; TOrch; TRecv 0; TTick 0].

End Busy.

(** After the failed list request of [ListFailure]: worker 0 takes a task
    from the closed channel and sees it through, and the run loop hands
    the error over. *)
Module AfterListFailure.

Definition steps : list Label :=
  [TRecv 0; TTick 0; TProcess 0; TFinish 0; TLoop].

End AfterListFailure.

(** After a cycle that returned [nil] both workers find the channel
    closed. *)
Module Drained.

Definition after_close : list Label :=
  Scenario.one_cycle ++ [TClosed 0; TClosed 1].

End Drained.

(** The signal arrives and [main] cancels while worker 0 has just
    received the first task and worker 1 stands at its [select]. *)
Module Cancelled.

Definition holding : list Label :=
  [TLoop; TOrch; TOrch; TOrch; TOrch; TOrch; TOrch; TRecv 0;
   TSignal; TMainSig].

(** Worker 0 sees its task through, then both workers return. *)
Definition wind_down : list Label :=
  [TTick 0; TProcess 0; TFinish 0; TCtxDone 0; TCtxDone 1].

End Cancelled.

(** * Properties of the repo updater *)

(** Unfolds a run of the updater down to the host's answers. *)
Ltac unfold_update :=
  unfold update, processRepo, Stat, PlainClone, PlainOpen, Worktree, Pull,
    check, bind, observe, perform, logf, ret, throw, start,
    cloneOptions, pullOptions, credential in *;
  cbn [run_world run_log run_calls out_world out_log out_calls out_err
       fst snd] in *.

(** A call that differs in its constructor from every entry of an explicit
    list is not in it. *)
Ltac not_in_calls :=
  let Hin := fresh "Hin" in
  intros Hin;
  repeat (apply elem_of_cons in Hin as [Hin|Hin]; [discriminate Hin|]);
  by apply elem_of_nil in Hin.

Section UpdaterTheorems.
Context {H : Host}.
Implicit Types (w : nat) (config : Config) (task : RepoTask) (wd : World).

(** C2.  What [update] does is decided by the answer of the existence
    check.  Path absent: one clone from the descriptor's clone URL with the
    configured credential, whose error, if any, is returned as a clone
    error.  Path present (and likewise when the check fails otherwise):
    open, work tree, pull with the credential; an open or work-tree error
    is returned; after the pull, "already up to date" is logged and is
    success, "non-fast-forward" is success with nothing done after the
    pull, no error is success, and any other error is returned as a pull
    error. *)
Theorem update_clones_or_pulls w config task wd :
  let path := RepoPath task in
  let name := Name (Repo task) in
  let o := update w config task wd in
  match os_Stat path wd with
  | Some ErrNotExist =>
      let cl := git_PlainClone path (cloneOptions config task) wd in
      out_calls o = [CallStat path (Some ErrNotExist);
                     CallPlainClone path (cloneOptions config task) cl.2] /\
      out_log o = [LogCloning w name] /\
      out_world o = cl.1 /\
      out_err o = ErrClone <$> cl.2
  | stat =>
      match git_PlainOpen path wd, git_Worktree path wd with
      | Some e, _ =>
          out_calls o = [CallStat path stat; CallPlainOpen path (Some e)] /\
          out_log o = [LogPulling w name] /\
          out_world o = wd /\ out_err o = Some (ErrOpen e)
      | None, Some e =>
          out_calls o = [CallStat path stat; CallPlainOpen path None;
                         CallWorktree path (Some e)] /\
          out_log o = [LogPulling w name] /\
          out_world o = wd /\ out_err o = Some (ErrWorktree e)
      | None, None =>
          let pl := git_Pull path (pullOptions config) wd in
          out_calls o = [CallStat path stat; CallPlainOpen path None;
                         CallWorktree path None;
                         CallPull path (pullOptions config) pl.2] /\
          out_world o = pl.1 /\
          match pl.2 with
          | Some NoErrAlreadyUpToDate =>
              out_err o = None /\
              out_log o = [LogPulling w name; LogUpToDate name]
          | Some ErrNonFastForwardUpdate =>
              out_err o = None /\ out_log o = [LogPulling w name]
          | Some e =>
              out_err o = Some (ErrPull e) /\ out_log o = [LogPulling w name]
          | None =>
              out_err o = None /\ out_log o = [LogPulling w name]
          end
      end
  end.
Proof.
  intros path name o. subst path name o. unfold_update.
  destruct (os_Stat (RepoPath task) wd) as [[]|]; cbn.
  3: by destruct (git_PlainClone _ _ wd) as [wd' [e|]].
  all: destruct (git_PlainOpen _ wd) as [e|]; cbn; [done|].
  all: destruct (git_Worktree _ wd) as [e|]; cbn; [done|].
  all: by destruct (git_Pull _ _ wd) as [wd' [[]|]].
Qed.

(** C10.  When the existence check answers with an error other than "does
    not exist", no clone is attempted and the updater goes down the pull
    branch to its end: it logs that it pulls and opens the path as a
    repository; an open error is returned as such after these two calls;
    after a successful open it takes the work tree, whose error is returned
    as such; after that it pulls with the configured credential, and the
    world and the result are those of the pull: an error other than
    "already up to date" and "non-fast-forward" is returned as a pull
    error.  Whatever error is returned is an open, work-tree or pull
    error. *)
Theorem update_stat_error_takes_pull_branch w config task wd e :
  os_Stat (RepoPath task) wd = Some e ->
  e <> ErrNotExist ->
  let path := RepoPath task in
  let o := update w config task wd in
  (forall p co ce, CallPlainClone p co ce ∉ out_calls o) /\
  take 2 (out_calls o) =
    [CallStat path (Some e); CallPlainOpen path (git_PlainOpen path wd)] /\
  (forall x, git_PlainOpen path wd = Some x -> out_err o = Some (ErrOpen x)) /\
  (forall x, out_err o = Some x ->
     exists y, x = ErrOpen y \/ x = ErrWorktree y \/ x = ErrPull y) /\
  head (out_log o) = Some (LogPulling w (Name (Repo task))) /\
  match git_PlainOpen path wd, git_Worktree path wd with
  | Some x, _ =>
      out_calls o = [CallStat path (Some e); CallPlainOpen path (Some x)] /\
      out_world o = wd /\ out_err o = Some (ErrOpen x)
  | None, Some x =>
      out_calls o = [CallStat path (Some e); CallPlainOpen path None;
                     CallWorktree path (Some x)] /\
      out_world o = wd /\ out_err o = Some (ErrWorktree x)
  | None, None =>
      let pl := git_Pull path (pullOptions config) wd in
      out_calls o = [CallStat path (Some e); CallPlainOpen path None;
                     CallWorktree path None;
                     CallPull path (pullOptions config) pl.2] /\
      pullOptions config
        = {| PullAuth := {| Username := "git";
                            Password := GithubToken config |} |} /\
      out_world o = pl.1 /\
      out_err o = match pl.2 with
                  | None | Some NoErrAlreadyUpToDate
                  | Some ErrNonFastForwardUpdate => None
                  | Some x => Some (ErrPull x)
                  end
  end.
Proof.
  intros Hstat Hne path o. subst path o. unfold_update.
  rewrite Hstat.
  assert (os_IsNotExist (Some e) = false) as -> by (by destruct e).
  cbn.
  destruct (git_PlainOpen _ wd) as [x|]; cbn.
  { split_and!; [intros; not_in_calls|done|by intros ? [= <-]| |done..].
    intros ? [= <-]. eauto. }
  destruct (git_Worktree _ wd) as [x|]; cbn.
  { split_and!; [intros; not_in_calls|done|done| |done..].
    intros ? [= <-]. eauto. }
  destruct (git_Pull _ _ wd) as [wd' [[]|]]; cbn;
    (split_and!; [intros; not_in_calls|done|done| |done..]);
    intros ? [=]; subst; eauto.
Qed.

(** The clone branch is taken exactly when the existence check answers
    "does not exist". *)
Lemma update_clones_iff w config task wd :
  (exists p co ce, CallPlainClone p co ce ∈ out_calls (update w config task wd))
  <-> os_Stat (RepoPath task) wd = Some ErrNotExist.
Proof.
  unfold_update.
  destruct (os_Stat (RepoPath task) wd) as [[]|] eqn:Hs; cbn.
  3: { destruct (git_PlainClone _ _ wd) as [wd' [x|]]; cbn;
       (split; [done|]); intros _; do 3 eexists;
       apply elem_of_cons; right; apply elem_of_cons; left; reflexivity. }
  all: split; [|discriminate]; intros (p & co & ce & Hin); exfalso;
       revert Hin.
  all: destruct (git_PlainOpen _ wd) as [x|]; cbn; [not_in_calls|].
  all: destruct (git_Worktree _ wd) as [x|]; cbn; [not_in_calls|].
  all: destruct (git_Pull _ _ wd) as [wd' [[]|]]; cbn; not_in_calls.
Qed.

End UpdaterTheorems.

(** A path the process may not look into: the existence check fails with
    "permission denied", nothing is cloned, the path is opened and the open
    error is what comes back. *)
Lemma update_stat_error_takes_pull_branch_witness :
  let o := update (H := Sim.host) 0 Scenario.cfg Mirrors.task Mirrors.forbidden in
  let denied := Some (ErrOther "permission denied") in
  os_Stat (Host := Sim.host) (RepoPath Mirrors.task) Mirrors.forbidden
    = denied /\
  out_err o = Some (ErrOpen (ErrOther "permission denied")) /\
  (forall p co ce, CallPlainClone p co ce ∉ out_calls o) /\
  head (out_log o) = Some (LogPulling 0 "good") /\
  out_calls o = [CallStat "/repos/good" denied;
                 CallPlainOpen "/repos/good" denied].
Proof.
  intros o denied.
  assert (os_Stat (Host := Sim.host) (RepoPath Mirrors.task) Mirrors.forbidden
            = Some (ErrOther "permission denied")) as Hstat by reflexivity.
  assert (ErrOther "permission denied" <> ErrNotExist) as Hne by discriminate.
  destruct (update_stat_error_takes_pull_branch (H := Sim.host) 0 Scenario.cfg
              Mirrors.task Mirrors.forbidden _ Hstat Hne)
    as (Hnoclone & _ & Hopen & _ & Hlog & Hcalls & _).
  split; [exact Hstat|]. split; [apply Hopen; reflexivity|].
  split; [exact Hnoclone|]. split; [exact Hlog|exact Hcalls].
Defined.

(** * Running the updater twice *)
Section Idempotence.
Context {H : Host} {L : GitLaws H}.
Implicit Types (w : nat) (config : Config) (task : RepoTask) (wd : World).

Lemma not_exist_false (err : option ExtErr) :
  err <> Some ErrNotExist -> os_IsNotExist err = false.
Proof. destruct err as [[]|]; cbn; congruence. Qed.

(** The second run after a first that cloned, fast-forwarded or found the
    mirror up to date. *)
Lemma update_after_success w config task wd :
  os_IsNotExist (os_Stat (RepoPath task) wd) = false ->
  git_PlainOpen (RepoPath task) wd = None ->
  git_Worktree (RepoPath task) wd = None ->
  git_Pull (RepoPath task) (pullOptions config) wd
    = (wd, Some NoErrAlreadyUpToDate) ->
  let o := update w config task wd in
  out_err o = None /\ out_world o = wd /\
  out_log o = [LogPulling w (Name (Repo task));
               LogUpToDate (Name (Repo task))] /\
  out_calls o =
    [CallStat (RepoPath task) (os_Stat (RepoPath task) wd);
     CallPlainOpen (RepoPath task) None;
     CallWorktree (RepoPath task) None;
     CallPull (RepoPath task) (pullOptions config) (Some NoErrAlreadyUpToDate)].
Proof.
  intros Hstat Hopen Hwt Hpull. unfold_update.
  rewrite Hstat. cbn. rewrite Hopen. cbn. rewrite Hwt. cbn.
  rewrite Hpull. cbn. done.
Qed.

(** C9, as the code has it.  With git behaving as [GitLaws] says, when a
    first run of the updater returned [nil] and its pull, if it pulled, was
    not refused as a non-fast-forward, a second run on the world the first
    left takes the pull branch, is answered "already up to date", logs it,
    returns [nil] and leaves the world as it was. *)
Theorem update_twice_up_to_date w config task wd :
  let path := RepoPath task in
  let name := Name (Repo task) in
  let o1 := update w config task wd in
  let o2 := update w config task (out_world o1) in
  out_err o1 = None ->
  non_fast_forward o1 = false ->
  out_err o2 = None /\
  out_world o2 = out_world o1 /\
  out_log o2 = [LogPulling w name; LogUpToDate name] /\
  out_calls o2 =
    [CallStat path (os_Stat path (out_world o1));
     CallPlainOpen path None;
     CallWorktree path None;
     CallPull path (pullOptions config) (Some NoErrAlreadyUpToDate)].
Proof.
  intros path name o1 o2 Hok Hff. subst o2 path name.
  assert (os_IsNotExist (os_Stat (RepoPath task) (out_world o1)) = false /\
          git_PlainOpen (RepoPath task) (out_world o1) = None /\
          git_Worktree (RepoPath task) (out_world o1) = None /\
          git_Pull (RepoPath task) (pullOptions config) (out_world o1)
            = (out_world o1, Some NoErrAlreadyUpToDate)) as (? & ? & ? & ?).
  2: by apply update_after_success.
  subst o1. revert Hok Hff. unfold non_fast_forward. unfold_update.
  destruct (os_Stat (RepoPath task) wd) as [[]|] eqn:Hstat; cbn.
  3: { destruct (git_PlainClone _ _ wd) as [wd' [x|]] eqn:Hclone; cbn;
         [discriminate|]. intros _ _.
       destruct (clone_then_up_to_date _ _ _ _ Hclone) as (? & ? & ? & ?).
       split_and!; try done. by apply not_exist_false. }
  all: destruct (git_PlainOpen _ wd) as [x|] eqn:Hopen; cbn; [discriminate|].
  all: destruct (git_Worktree _ wd) as [x|] eqn:Hwt; cbn; [discriminate|].
  all: destruct (git_Pull _ _ wd) as [wd' [[]|]] eqn:Hpull; cbn;
         repeat (case_bool_decide; try done; cbn);
         try discriminate; intros _ _.
  all: try (pose proof (up_to_date_unchanged _ _ _ _ Hpull) as ->;
            split_and!; try done; by rewrite Hstat).
  all: destruct (pull_then_up_to_date _ _ _ _ Hpull) as (? & ? & ? & ?);
       split_and!; try done; by apply not_exist_false.
Qed.
End Idempotence.

(** The simulated host obeys the laws. *)
Lemma sim_assoc_store {A} k (v : A) l : Sim.assoc k (Sim.store k v l) = Some v.
Proof.
  induction l as [|[k' v'] l IH]; cbn.
  - by rewrite bool_decide_eq_true_2.
  - destruct (bool_decide (k = k')) eqn:Hk; cbn.
    + by rewrite bool_decide_eq_true_2.
    + by rewrite Hk.
Qed.

Lemma sim_git_laws : GitLaws Sim.host.
Proof.
  split; cbn; unfold Sim.PlainClone, Sim.Pull, Sim.Stat, Sim.PlainOpen,
    Sim.Worktree.
  - intros path o wd wd'.
    destruct (Sim.denied path wd) eqn:Hden; [discriminate|].
    destruct (Sim.assoc (URL o) (Sim.sim_remote wd)) as [head|] eqn:Hrem;
      [|discriminate].
    intros [= <-]. unfold Sim.denied in *. cbn. rewrite Hden.
    rewrite sim_assoc_store. cbn. rewrite Hrem.
    by rewrite bool_decide_eq_true_2.
  - intros path o wd wd'.
    destruct (Sim.denied path wd) eqn:Hden; [discriminate|].
    destruct (Sim.assoc path (Sim.sim_fs wd)) as [[|origin rev div]|] eqn:Hfs;
      try discriminate.
    destruct (Sim.assoc origin (Sim.sim_remote wd)) as [head|] eqn:Hrem;
      [|discriminate].
    destruct (bool_decide (head = rev)); [discriminate|].
    destruct div; [discriminate|].
    intros [= <-]. unfold Sim.denied in *. cbn. rewrite Hden.
    rewrite sim_assoc_store. cbn. rewrite Hrem.
    by rewrite bool_decide_eq_true_2.
  - intros path o wd wd'.
    destruct (Sim.denied path wd); [discriminate|].
    destruct (Sim.assoc path (Sim.sim_fs wd)) as [[|origin rev div]|];
      try discriminate.
    destruct (Sim.assoc origin (Sim.sim_remote wd)) as [head|];
      [|discriminate].
    destruct (bool_decide (head = rev)); [by intros [= <-]|].
    destruct div; discriminate.
Qed.

(** A fresh path: the first run clones, the second finds the mirror up to
    date. *)
Lemma update_twice_up_to_date_witness :
  let o1 := update (H := Sim.host) 0 Scenario.cfg Mirrors.task Mirrors.fresh in
  let o2 := update (H := Sim.host) 0 Scenario.cfg Mirrors.task (out_world o1) in
  out_err o1 = None /\ non_fast_forward o1 = false /\
  out_err o2 = None /\ out_world o2 = out_world o1.
Proof.
  intros o1 o2.
  assert (out_err o1 = None) as H1 by reflexivity.
  assert (non_fast_forward o1 = false) as H2 by reflexivity.
  destruct (update_twice_up_to_date (L := sim_git_laws) 0 Scenario.cfg
              Mirrors.task Mirrors.fresh H1 H2) as (H3 & H4 & _).
  exact (conj H1 (conj H2 (conj H3 H4))).
Defined.

(** C9 as stated fails.  When the clone URL is not served the first run
    fails and the second clones again and fails again; on a diverged
    mirror both runs return [nil] and neither is answered "already up to
    date". *)
Lemma update_twice_not_always_up_to_date :
  let path := RepoPath Mirrors.task in
  let name := Name (Repo Mirrors.task) in
  let run2 (wd : Sim.SimWorld) :=
    update (H := Sim.host) 0 Scenario.cfg Mirrors.task
      (out_world (update (H := Sim.host) 0 Scenario.cfg Mirrors.task wd)) in
  (out_err (run2 Mirrors.unreachable)
     = Some (ErrClone (ErrOther "repository not found")) /\
   out_calls (run2 Mirrors.unreachable)
     = [CallStat path (Some ErrNotExist);
        CallPlainClone path (cloneOptions Scenario.cfg Mirrors.task)
          (Some (ErrOther "repository not found"))]) /\
  (out_err (update (H := Sim.host) 0 Scenario.cfg Mirrors.task Mirrors.diverged)
     = None /\
   out_err (run2 Mirrors.diverged) = None /\
   out_log (run2 Mirrors.diverged) = [LogPulling 0 name] /\
   non_fast_forward (run2 Mirrors.diverged) = true) /\
  ~ (forall wd, out_err (run2 wd) = None /\
                LogUpToDate name ∈ out_log (run2 wd)).
Proof.
  intros path name run2.
  split; [by vm_compute|]. split; [by vm_compute|].
  intros Hclaim. destruct (Hclaim Mirrors.unreachable) as [Herr _].
  vm_compute in Herr. discriminate.
Qed.

(** * Properties of the start-up *)
Section Startup.
Context {H : Host}.

(** C7, as the code has it.  The service starts exactly when the file is
    read and unmarshalled and the poll interval parses.  The configuration
    it starts with has each field as the file gives it, the worker count 5
    and the queue capacity 100 where the file has no such key, and the
    empty string for every other key the file lacks.  No field is checked
    against a range, and no key is required as such. *)
Theorem main_init_accepts file :
  match main_init file with
  | Serving config interval =>
      exists doc, file = Document doc /\
        config = {| GithubToken := default "" (y_github_token doc);
                    GithubUser := default "" (y_github_user doc);
                    ReposDir := default "" (y_repos_dir doc);
                    PollInterval := default "" (y_poll_interval doc);
                    WorkerCount := default 5 (y_worker_count doc);
                    WorkQueueSize := default 100 (y_queue_size doc) |} /\
        time_ParseDuration (default "" (y_poll_interval doc)) = inr interval
  | Fatal line =>
      match file with
      | ReadFailed e | UnmarshalFailed e => line = LogFatalConfig e
      | Document doc =>
          exists e, line = LogFatalInterval e /\
            time_ParseDuration (default "" (y_poll_interval doc)) = inl e
      end
  end.
Proof.
  unfold main_init, loadConfig, yaml_Unmarshal.
  destruct file as [e|e|doc]; cbn; try done.
  destruct (time_ParseDuration _) as [e|interval] eqn:Hparse; eauto.
Qed.

End Startup.

(** C7 as stated fails: a file giving 0 workers, capacity 0 and the
    interval "0s" is accepted, and so is a file that has no key but the
    interval. *)
Lemma main_init_accepts_zeros :
  main_init (H := Sim.host) (Document ConfigFiles.zeros)
    = Serving {| GithubToken := "tok"; GithubUser := "alice";
                 ReposDir := "/repos"; PollInterval := "0s";
                 WorkerCount := 0; WorkQueueSize := 0 |} 0 /\
  main_init (H := Sim.host) (Document ConfigFiles.interval_only)
    = Serving {| GithubToken := ""; GithubUser := ""; ReposDir := "";
                 PollInterval := "1h";
                 WorkerCount := 5; WorkQueueSize := 100 |} 3600000000000 /\
  ~ (forall file config interval,
       main_init (H := Sim.host) file = Serving config interval ->
       1 <= WorkerCount config /\ 1 <= WorkQueueSize config /\ 0 < interval).
Proof.
  split; [reflexivity|]. split; [reflexivity|].
  intros Hclaim.
  destruct (Hclaim (Document ConfigFiles.zeros) _ _ eq_refl) as [Hw _].
  cbn in Hw. lia.
Qed.

(** On the simulated host a file without the interval key is fatal: the
    empty string is not a duration. *)
Lemma main_init_no_interval :
  main_init (H := Sim.host) (Document ConfigFiles.no_interval)
    = Fatal (LogFatalInterval (ErrOther "time: invalid duration")).
Proof. reflexivity. Qed.

(** * Properties of the running service *)

(** Case analysis on an enabled step: every way [exec] returns a state. *)
Ltac exec_cases Hexec :=
  unfold exec, main_step, loop_step, syncRepos, handoff_step, Worker_start,
    start_cycle, logs in Hexec;
  repeat (case_match; try discriminate);
  simplify_eq.

Section ServiceFacts.
Context {H : Host}.
Implicit Types (config : Config) (s : State) (l : Label).

Lemma run_reachable config w ls s s' :
  reachable config w s -> run config ls s = Some s' -> reachable config w s'.
Proof.
  revert s. induction ls as [|l ls IH]; intros s Hs Hrun; cbn in Hrun.
  - by injection Hrun as <-.
  - destruct (exec config l s) as [s1|] eqn:Hexec; [|discriminate].
    eapply IH; [|exact Hrun]. by eapply reach_step.
Qed.

Lemma run_from_init config w ls s :
  run config ls (init w) = Some s -> reachable config w s.
Proof. apply run_reachable. constructor. Qed.

(** An invariant holds of every reachable state. *)
Lemma reachable_ind_inv config w (P : State -> Prop) :
  P (init w) ->
  (forall s l s', P s -> exec config l s = Some s' -> P s') ->
  forall s, reachable config w s -> P s.
Proof. intros Hinit Hstep s Hs. induction Hs; eauto. Qed.

(** Replacing the state of one worker replaces the task it holds. *)
Lemma in_flight_insert (ws : list WorkerState) i wi wi' :
  ws !! i = Some wi ->
  exists others,
    concat (map held ws) ≡ₚ held wi ++ others /\
    concat (map held (<[i := wi']> ws)) ≡ₚ held wi' ++ others.
Proof.
  intros Hi. exists (concat (map held (take i ws)) ++ concat (map held (drop (S i) ws))).
  split.
  - rewrite <- (take_drop_middle ws i wi Hi) at 1.
    rewrite !map_app, !concat_app. cbn [map concat]. solve_Permutation.
  - rewrite insert_take_drop by (by eapply lookup_lt_Some).
    rewrite !map_app, !concat_app. cbn [map concat]. solve_Permutation.
Qed.

Lemma in_flight_replicate n : concat (map held (replicate n WSelect)) = [].
Proof. induction n; cbn; auto. Qed.

End ServiceFacts.

(** Projections of updated states. *)
Ltac state_simpl :=
  cbn [st_main st_loop st_sig st_cancelled st_errorChan st_orch st_total
       st_workers st_queue st_closed st_counter st_world st_log g_mkdir
       g_requests g_added g_done set_main set_loop set_sig set_cancelled
       set_errorChan set_orch set_total set_workers set_queue set_closed
       set_counter set_world set_log set_gmkdir set_grequests set_gadded
       set_gdone] in *.

Ltac use_state_eqs :=
  repeat match goal with
         | E : st_orch ?s = _ |- _ => rewrite E in *; clear E
         | E : st_queue ?s = _ |- _ => rewrite E in *; clear E
         | E : st_loop ?s = _ |- _ => rewrite E in *; clear E
         end.

Ltac use_worker :=
  try match goal with
      | E : st_workers ?s0 !! ?i = Some ?wi
        |- context [<[?i := ?wi']> (st_workers ?s0)] =>
          let others := fresh "others" in
          let E1 := fresh "E1" in
          let E2 := fresh "E2" in
          destruct (in_flight_insert _ i wi wi' E) as (others & E1 & E2);
          rewrite ?E2; rewrite E1 in *; cbn [held] in *
      end.

Section Accounting.
Context {H : Host}.
Implicit Types (config : Config) (s : State) (l : Label).

Lemma accounted_step config s l s' :
  accounted s -> exec config l s = Some s' -> accounted s'.
Proof.
  intros [Ht Hc Hr Hl] Hexec.
  exec_cases Hexec.
  all: split; unfold outstanding, pending, in_flight, finished in *;
    state_simpl; use_worker; rewrite ?in_flight_replicate;
    try (use_state_eqs; cbn [idle] in *; first [done | tauto | by intros ?; apply Hl]).
  all: try (use_state_eqs; rewrite ?map_app; cbn [map fst snd]; rewrite ?Ht; solve_Permutation).
  all: try (use_state_eqs; rewrite ?length_app; cbn [length]; lia).
  - (* a new cycle is entered: the run loop was outside syncRepos *)
    assert (idle (st_orch s)) as Hidle by (apply Hl; congruence).
    destruct (st_orch s); try done; rewrite Ht; solve_Permutation.
  - intros _.
    match goal with E : bool_decide _ = true |- _ =>
      by apply bool_decide_eq_true in E end.
  - (* wg.Done after a nil return: the worker's task would be unaccounted *)
    intros Hret. specialize (Hr Hret).
    match goal with E : st_workers s !! _ = Some _ |- _ =>
      destruct (in_flight_insert _ _ _ WSelect E) as (others & E1 & _) end.
    rewrite E1 in Ht. apply Permutation_length in Ht.
    rewrite !length_app, length_map in Ht. cbn [held length] in Ht. lia.
  - intros Hret. specialize (Hr Hret).
    match goal with E : st_workers s !! _ = Some _ |- _ =>
      destruct (in_flight_insert _ _ _ WSelect E) as (others & E1 & _) end.
    rewrite E1 in Ht. apply Permutation_length in Ht.
    rewrite !length_app, length_map in Ht. cbn [held length] in Ht. lia.
Qed.

End Accounting.

Section Reporting.
Context {H : Host}.
Implicit Types (config : Config) (s : State) (l : Label).

Lemma update_error_is_task_error w config task wd e :
  out_err (update w config task wd) = Some e -> is_task_error e.
Proof.
  unfold_update.
  destruct (os_Stat _ wd) as [[]|]; cbn.
  3: { destruct (git_PlainClone _ _ wd) as [wd' [x|]]; cbn; intros [=]; by subst. }
  all: destruct (git_PlainOpen _ wd) as [x|]; cbn; [intros [=]; by subst|].
  all: destruct (git_Worktree _ wd) as [x|]; cbn; [intros [=]; by subst|].
  all: destruct (git_Pull _ _ wd) as [wd' [[]|]]; cbn; intros [=]; by subst.
Qed.

Lemma first_list_error_snoc reqs req resp :
  first_list_error reqs = None ->
  first_list_error (reqs ++ [(req, resp)]) = match resp with inl e => Some (ErrList e) | inr _ => None end.
Proof.
  induction reqs as [|[r [e|p]] reqs IH]; cbn; intros Hnone.
  - by destruct resp.
  - discriminate.
  - by apply IH.
Qed.

Lemma cycle_error_snoc mkdir reqs req resp :
  cycle_error mkdir reqs = None ->
  cycle_error mkdir (reqs ++ [(req, resp)]) = match resp with inl e => Some (ErrList e) | inr _ => None end.
Proof.
  destruct mkdir; cbn; [discriminate|]. apply first_list_error_snoc.
Qed.

Lemma reported_step config s l s' :
  reported s -> exec config l s = Some s' -> reported s'.
Proof.
  intros [Hli Hre Hlo Hdo Hhe] Hexec.
  exec_cases Hexec.
  all: split; state_simpl.
  all: try (use_state_eqs; cbn [listing] in *; first [done | tauto]).
  all: try (intros ? ? ? Hlk;
            first [ apply lookup_replicate in Hlk as [[=] _]
                  | apply list_lookup_insert_Some in Hlk
                      as [(-> & Heq & _)|[_ Hlk]];
                    [simplify_eq; try (by eapply update_error_is_task_error)
                    |by eapply Hhe] ]).
  all: try (intros ? ? ? Hin;
            repeat (apply elem_of_app in Hin as [Hin|Hin]);
            try (apply list_elem_of_singleton in Hin; simplify_eq);
            first [ by apply elem_of_nil in Hin
                  | by eapply Hdo | by eapply Hhe
                  | rewrite ?elem_of_app; left; by eapply Hlo
                  | rewrite ?elem_of_app; right; by apply list_elem_of_singleton
                  | by eapply Hlo ]).
  all: try (intros ? [=]; subst; use_state_eqs; cbn [listing] in *;
            first [ done
                  | by (rewrite cycle_error_snoc by (by apply Hli))
                  | by (symmetry; apply Hli)
                  | by apply Hre ]).
  all: try (intros _; use_state_eqs; cbn [listing] in *;
            first [ done
                  | by (rewrite cycle_error_snoc by (by apply Hli))
                  | by apply Hli ]).
Qed.

End Reporting.

Section Cycle.
Context {H : Host}.
Implicit Types (config : Config) (s : State) (l : Label).

Lemma state_after_reachable config ls w :
  reachable config w (state_after config ls w).
Proof.
  unfold state_after.
  destruct (run config ls (init w)) as [s|] eqn:Hrun; cbn.
  - by eapply run_from_init.
  - constructor.
Qed.

Lemma accounted_reachable config w s : reachable config w s -> accounted s.
Proof.
  apply reachable_ind_inv.
  - split; cbn; done.
  - intros. by eapply accounted_step.
Qed.

Lemma reported_reachable config w s : reachable config w s -> reported s.
Proof.
  apply reachable_ind_inv.
  - split; cbn; try done.
    all: intros ? ? ? Hin; by apply elem_of_nil in Hin.
  - intros. by eapply reported_step.
Qed.

Lemma first_list_error_none reqs :
  (forall req e, (req, inl e) ∉ reqs) -> first_list_error reqs = None.
Proof.
  induction reqs as [|[req [e|p]] reqs IH]; cbn; intros Hno; [done| |].
  - exfalso. apply (Hno req e). by left.
  - apply IH. intros req' e' Hin. apply (Hno req' e'). by right.
Qed.

(** The counter is the number of outstanding tasks. *)
Lemma outstanding_counted config w s :
  reachable config w s -> st_counter s = Z.of_nat (length (outstanding s)).
Proof.
  intros Hreach. destruct (accounted_reachable _ _ _ Hreach) as [Ht Hc _ _].
  rewrite Hc. pose proof (Permutation_length Ht) as Hlen.
  unfold finished in Hlen. rewrite length_app, length_map in Hlen. lia.
Qed.

(** After a [nil] return nothing is outstanding. *)
Lemma returned_all_done config w s :
  reachable config w s -> st_orch s = OReturned None ->
  st_counter s = 0 /\ outstanding s = [] /\ g_added s ≡ₚ finished s.
Proof.
  intros Hreach Hret. pose proof (outstanding_counted _ _ _ Hreach) as Hout.
  destruct (accounted_reachable _ _ _ Hreach) as [Ht _ Hr _].
  specialize (Hr Hret).
  assert (outstanding s = []) as Hnil by (apply length_zero_iff_nil; lia).
  rewrite Hnil, app_nil_r in Ht. done.
Qed.

(** The WaitGroup in every state the service reaches: the counter is not
    negative;
    it is the number of outstanding tasks, those for which [wg.Add] was
    called and [wg.Done] was not; every task [wg.Add] was called for is
    done once or outstanding once, so no task is counted down twice and
    every task a worker can see was counted before; a worker back from
    [processRepo] calls [wg.Done] whatever the result was; and when the
    cycle has returned [nil] the counter is zero and every task is done. *)
Theorem counter_accounts_for_tasks config w s :
  reachable config w s ->
  0 <= st_counter s /\
  st_counter s = Z.of_nat (length (outstanding s)) /\
  g_added s ≡ₚ finished s ++ outstanding s /\
  (forall t, t ∈ st_queue s ++ in_flight s -> t ∈ g_added s) /\
  (forall i t r, alive s = true -> st_workers s !! i = Some (WDone t r) ->
     exists s', exec config (TFinish i) s = Some s' /\
       st_counter s' = st_counter s - 1 /\
       g_done s' = g_done s ++ [(i, t, r)]) /\
  (st_orch s = OReturned None ->
     st_counter s = 0 /\ outstanding s = [] /\ g_added s ≡ₚ finished s).
Proof.
  intros Hreach. pose proof (outstanding_counted _ _ _ Hreach) as Hout.
  destruct (accounted_reachable _ _ _ Hreach) as [Ht Hc Hr _].
  split_and!; try done.
  - lia.
  - intros t Hin. rewrite Ht. unfold outstanding.
    rewrite !elem_of_app in *. tauto.
  - intros i t r Halive Hi. unfold exec, Worker_start. rewrite Halive, Hi.
    destruct r; eexists; split; try done.
  - by apply (returned_all_done config w).
Qed.

(** C1.  What a cycle returns is the error of [os.MkdirAll] if it failed,
    else the error of the list request that failed, else [nil]: it is
    [nil] when neither failed.  An error of [processRepo] on a task is
    written to the log by the worker with its id and the repository name,
    and is never what the cycle returns. *)
Theorem cycle_returns_lister_error config w s :
  reachable config w s ->
  (forall r, st_orch s = OReturned r ->
     r = cycle_error (g_mkdir s) (g_requests s) /\
     (g_mkdir s = None -> (forall req e, (req, inl e) ∉ g_requests s) ->
      r = None)) /\
  (forall i t e, (i, t, Some e) ∈ g_done s ->
     is_task_error e /\
     LogWorkerError i (Name (Repo t)) e ∈ st_log s /\
     st_orch s <> OReturned (Some e)).
Proof.
  intros Hreach.
  destruct (reported_reachable _ _ _ Hreach) as [_ Hre Hlo Hdo _].
  split.
  - intros r Hr. split; [by apply Hre|].
    intros Hmk Hno. rewrite (Hre r Hr), Hmk. cbn.
    by apply first_list_error_none.
  - intros i t e Hin. split_and!; [by eapply Hdo|by apply Hlo|].
    intros Hr. specialize (Hdo _ _ _ Hin). apply Hre in Hr.
    destruct (g_mkdir s); cbn in Hr; [simplify_eq; done|].
    clear -Hr Hdo. induction (g_requests s) as [|[req [x|p]] reqs IH];
      cbn in Hr; simplify_eq; first [done | by apply IH].
Qed.

End Cycle.

(** A cycle that returned [nil]; the second of its two clones failed. *)
Lemma counter_accounts_for_tasks_witness :
  let s := state_after (H := Sim.host) Scenario.cfg Scenario.one_cycle
             Scenario.one_unreachable in
  reachable (H := Sim.host) Scenario.cfg Scenario.one_unreachable s /\
  st_orch s = OReturned None /\
  st_counter s = 0.
Proof.
  intros s.
  assert (reachable (H := Sim.host) Scenario.cfg Scenario.one_unreachable s)
    as Hreach by apply (state_after_reachable (H := Sim.host)).
  assert (st_orch s = OReturned None) as Hret by (vm_compute; reflexivity).
  destruct (counter_accounts_for_tasks (H := Sim.host) Scenario.cfg
              Scenario.one_unreachable s Hreach)
    as (_ & _ & _ & _ & _ & Hdone).
  exact (conj Hreach (conj Hret (proj1 (Hdone Hret)))).
Defined.

(** One repository's clone fails and the lister succeeds: the error is
    in the log and the cycle has returned [nil]. *)
Lemma cycle_returns_lister_error_witness :
  let s := state_after (H := Sim.host) Scenario.cfg Scenario.one_cycle
             Scenario.one_unreachable in
  let t := newTask (H := Sim.host) Scenario.cfg (Scenario.repo "bad") in
  let e := ErrClone (ErrOther "repository not found") in
  reachable (H := Sim.host) Scenario.cfg Scenario.one_unreachable s /\
  st_orch s = OReturned None /\
  (1%nat, t, Some e) ∈ g_done s /\
  LogWorkerError 1 "bad" e ∈ st_log s.
Proof.
  intros s t e.
  assert (reachable (H := Sim.host) Scenario.cfg Scenario.one_unreachable s)
    as Hreach by apply (state_after_reachable (H := Sim.host)).
  assert ((1%nat, t, Some e) ∈ g_done s) as Hin.
  { vm_compute. right. left. }
  destruct (cycle_returns_lister_error (H := Sim.host) Scenario.cfg
              Scenario.one_unreachable s Hreach) as [Hret Hdone].
  split; [exact Hreach|]. split; [vm_compute; reflexivity|].
  split; [exact Hin|].
  exact (proj1 (proj2 (Hdone _ _ _ Hin))).
Defined.

(** * Properties of the lister *)
Section Listing.
Context {H : Host}.
Implicit Types (config : Config) (s : State) (l : Label).

(** The account identifier of the configuration is never read. *)
Lemma exec_ignores_user config user l s :
  exec (with_user user config) l s = exec config l s.
Proof. reflexivity. Qed.

Lemma reachable_ignores_user config user w s :
  reachable config w s -> reachable (with_user user config) w s.
Proof.
  induction 1 as [|s l s' _ IH Hexec]; [constructor|].
  eapply reach_step; [exact IH|]. by rewrite exec_ignores_user.
Qed.

(** Every list request is the one of lines 153-161. *)
Lemma requests_step config s l s' :
  (forall req resp, (req, resp) ∈ g_requests s ->
     exists page, req = listRequest config page) ->
  exec config l s = Some s' ->
  forall req resp, (req, resp) ∈ g_requests s' ->
    exists page, req = listRequest config page.
Proof.
  intros Hreq Hexec. exec_cases Hexec; state_simpl; try done.
  all: intros req resp Hin.
  all: first [ by apply elem_of_nil in Hin
             | apply elem_of_app in Hin as [Hin|Hin];
               [by eapply Hreq|];
               apply list_elem_of_singleton in Hin; simplify_eq; eauto ].
Qed.
End Listing.

Section Account.
Context {H : Host}.
Implicit Types (config : Config) (s : State) (l : Label).

(** C8, as the code has it.  Every list request is made with the
    configured token, for the empty user name, which the service reads as
    the owner of the token, and with visibility "all".  The account
    identifier of the configuration is not used: the service reaches the
    same states whatever it is. *)
Theorem lister_asks_for_token_owner config w s :
  reachable config w s ->
  (forall req resp, (req, resp) ∈ g_requests s ->
     lr_user req = "" /\ lr_token req = GithubToken config /\
     Visibility (lr_opt req) = "all") /\
  (forall user, reachable (with_user user config) w s).
Proof.
  intros Hreach. split.
  - intros req resp Hin.
    assert (exists page, req = listRequest config page) as [page ->]; [|done].
    revert req resp Hin. clear -Hreach.
    induction Hreach as [|s l s' Hreach IH Hexec].
    + intros req resp Hin. by apply elem_of_nil in Hin.
    + by eapply requests_step.
  - intros user. by apply reachable_ignores_user.
Qed.

Lemma state_after_ignores_user config user ls w :
  state_after (with_user user config) ls w = state_after config ls w.
Proof.
  unfold state_after. f_equal. generalize (init w).
  induction ls as [|l ls IH]; intros s; cbn; [done|].
  rewrite exec_ignores_user. destruct (exec config l s); [apply IH|done].
Qed.

(** Nothing moves once the process has ended. *)
Lemma exec_after_exit config l s : alive s = false -> exec config l s = None.
Proof. intros Hdead. unfold exec. by rewrite Hdead. Qed.

End Account.

(** A cycle with alice as the configured account: the request is made for
    the empty user name. *)
Lemma lister_asks_for_token_owner_witness :
  let s := state_after (H := Sim.host) Scenario.cfg Accounts.cycle
             Accounts.world in
  reachable (H := Sim.host) Scenario.cfg Accounts.world s /\
  map (fun p => lr_user (fst p)) (g_requests s) = [""] /\
  reachable (H := Sim.host) (with_user "bob" Scenario.cfg) Accounts.world s.
Proof.
  intros s.
  assert (reachable (H := Sim.host) Scenario.cfg Accounts.world s) as Hreach
    by apply (state_after_reachable (H := Sim.host)).
  destruct (lister_asks_for_token_owner (H := Sim.host) Scenario.cfg
              Accounts.world s Hreach) as [_ Huser].
  split; [exact Hreach|]. split; [vm_compute; reflexivity|]. apply Huser.
Defined.

(** C8 as stated fails.  With alice configured, the one request of the
    cycle is made for the empty user name, the repository enqueued is the
    token owner's and not hers, and with bob configured instead the cycle
    ends in the very same state. *)
Lemma lister_ignores_configured_user :
  let s := state_after (H := Sim.host) Scenario.cfg Accounts.cycle
             Accounts.world in
  GithubUser Scenario.cfg = "alice" /\
  map (fun p => lr_user (fst p)) (g_requests s) = [""] /\
  g_added s = [newTask (H := Sim.host) Scenario.cfg (Scenario.repo "mine")] /\
  state_after (H := Sim.host) (with_user "bob" Scenario.cfg) Accounts.cycle
    Accounts.world = s /\
  ~ (forall config w s', reachable (H := Sim.host) config w s' ->
       forall req resp, (req, resp) ∈ g_requests s' ->
         lr_user req = GithubUser config).
Proof.
  intros s.
  split; [reflexivity|]. split; [vm_compute; reflexivity|].
  split; [vm_compute; reflexivity|].
  split; [apply state_after_ignores_user|].
  intros Hclaim.
  pose (req := listRequest Scenario.cfg 0).
  pose (resp := inr ([Scenario.repo "mine"], 0) : ListResponse).
  assert ((req, resp) ∈ g_requests s) as Hin by (vm_compute; left).
  specialize (Hclaim Scenario.cfg Accounts.world s
                (state_after_reachable (H := Sim.host) _ _ _) req resp Hin).
  discriminate Hclaim.
Qed.

Section Pagination.
Context {H : Host}.
Implicit Types (config : Config) (s : State) (l : Label).

Lemma github_page_after all k :
  github_page all 100 (page_after k)
  = (take 100 (drop (k * 100) all),
     if bool_decide (S k * 100 < length all)%nat
     then Z.of_nat (S k) + 1 else 0).
Proof.
  unfold github_page.
  assert (Z.max (page_after k) 1 = Z.of_nat (S k)) as ->.
  { destruct k; cbn [page_after]; lia. }
  f_equal.
  - f_equal. f_equal. lia.
  - repeat case_bool_decide; lia.
Qed.

Lemma pages_S k : pages (S k) = pages k ++ [page_after k].
Proof. unfold pages. by rewrite seq_S, map_app. Qed.

Lemma paged_step config all w s l s' :
  served config all w -> reachable config w s ->
  paged config all s -> exec config l s = Some s' -> paged config all s'.
Proof.
  intros Hserved Hreach Hp Hexec.
  pose proof (fun page => Hserved s page Hreach) as Hlist. clear Hserved Hreach.
  exec_cases Hexec; unfold paged, requested in *; state_simpl;
    use_state_eqs; try done.
  all: try (destruct (st_orch s) as [| | | | | |[]]; try done;
            destruct Hp as (k & ? & ? & ? & ? & ? & ? & Hlog);
            exists k; split_and!; try done;
            apply elem_of_app; by left).
  - (* lines 144-158: nothing fetched yet *)
    exists 0%nat. split_and!; try done. by left.
  - (* a page arrives *)
    destruct Hp as (k & -> & Hreq & Hadd & Htot & Hk).
    match goal with E : Repositories_List _ _ = _ |- _ =>
      rewrite Hlist, github_page_after in E; injection E as <- <- end.
    exists (S k), (k * 100)%nat. split_and!; try done.
    + lia.
    + by rewrite map_app, Hreq, pages_S.
    + rewrite take_drop_commute. do 2 f_equal. lia.
    + rewrite length_take. lia.
    + rewrite Htot, !length_take, length_drop. lia.
    + destruct Hk; [left|right]; lia.
  - (* the last page is used up *)
    destruct Hp as (k & j & Hk1 & Hreq & Hadd & Hrest & Hj & Htot & Hnext & Hmin).
    match goal with E : bool_decide (next = 0) = true |- _ =>
      apply bool_decide_eq_true in E; subst next end.
    case_bool_decide as Hlt; [lia|].
    rewrite take_ge in * by lia.
    assert (length (drop j all) = 0%nat) as Hlen by (by rewrite <- Hrest).
    rewrite length_drop in Hlen.
    rewrite take_ge in Hadd by lia.
    exists k. split_and!; try done; [lia|].
    rewrite Htot. apply elem_of_app. right. by apply list_elem_of_singleton.
  - (* a page is used up and another follows *)
    destruct Hp as (k & j & Hk1 & Hreq & Hadd & Hrest & Hj & Htot & Hnext & Hmin).
    match goal with E : bool_decide (next = 0) = false |- _ =>
      apply bool_decide_eq_false in E end.
    case_bool_decide as Hlt; [|done].
    assert (length (drop j (take (k * 100) all)) = 0%nat) as Hlen
      by (by rewrite <- Hrest).
    rewrite length_drop in Hlen. rewrite length_take in Hlen, Hj.
    assert (j = k * 100)%nat as -> by lia.
    exists k. split_and!; try done; [|by right].
    subst next. destruct k; [lia|done].
  - (* wg.Add for the next repository of the page *)
    destruct Hp as (k & j & Hk1 & Hreq & Hadd & Hrest & Hj & Htot & Hnext & Hmin).
    assert (take (k * 100) all !! j = Some r) as Hlk.
    { rewrite <- (Nat.add_0_r j), <- lookup_drop, <- Hrest. done. }
    pose proof Hlk as Hall. apply lookup_take_Some in Hall as [Hall _].
    exists k, (S j). split_and!; try done.
    + by rewrite (take_S_r _ _ _ Hall), map_app, Hadd.
    + rewrite (drop_S _ _ _ Hlk) in Hrest. by injection Hrest.
    + by apply lookup_lt_Some in Hlk.
Qed.
Lemma paged_reachable config all w s :
  served config all w -> reachable config w s -> paged config all s.
Proof.
  intros Hserved Hreach.
  induction Hreach as [|s l s' Hreach IH Hexec]; [done|].
  by eapply paged_step.
Qed.

End Pagination.

Section Lister.
Context {H : Host}.
Implicit Types (config : Config) (s : State) (l : Label).

Lemma update_world_cases w config task wd :
  let o := update w config task wd in
  out_world o = wd \/
  out_world o = (git_PlainClone (RepoPath task) (cloneOptions config task) wd).1 \/
  out_world o = (git_Pull (RepoPath task) (pullOptions config) wd).1.
Proof.
  unfold_update.
  destruct (os_Stat _ wd) as [[]|]; cbn.
  3: { destruct (git_PlainClone _ _ wd) as [wd' [x|]]; cbn; auto. }
  all: destruct (git_PlainOpen _ wd) as [x|]; cbn; auto.
  all: destruct (git_Worktree _ wd) as [x|]; cbn; auto.
  all: destruct (git_Pull _ _ wd) as [wd' [[]|]]; cbn;
         repeat (case_bool_decide; try done; cbn); auto.
Qed.

(** A task made by [newTask] holds its repository and the path of that
    repository under the root. *)
Lemma newTask_resolved config (all : list Repository) :
  Forall2 (fun t repo =>
             Repo t = repo /\
             RepoPath t = filepath_Join (ReposDir config) (Name repo))
    (map (newTask config) all) all.
Proof. induction all as [|repo rest IH]; constructor; [done|exact IH]. Qed.

(** C6.  Every list request asks for pages of 100.  Against an account
    that holds [all] and is served in such pages, a cycle that returns
    [nil] has called [wg.Add] for one task per repository, in order, each
    holding its descriptor and, as its path, the name of the repository
    joined to the root; every one of them is done; the total printed is the
    number of repositories; and the pages asked for are the unset page and
    then every [NextPage] until it was 0.  For 150 repositories that is two
    requests, for the unset page and for page 2, 150 tasks, one per
    descriptor with its path, and a printed total of 150. *)
Theorem lister_fetches_all_pages config all w s :
  served config all w ->
  reachable config w s ->
  let resolved (t : RepoTask) (repo : Repository) :=
    Repo t = repo /\
    RepoPath t = filepath_Join (ReposDir config) (Name repo) in
  (forall req resp, (req, resp) ∈ g_requests s -> PerPage (lr_opt req) = 100) /\
  (st_orch s = OReturned None ->
     g_added s = map (newTask config) all /\
     finished s ≡ₚ map (newTask config) all /\
     st_total s = Z.of_nat (length all) /\
     PrintFound (Z.of_nat (length all)) ∈ st_log s /\
     (exists k : nat,
       requested s = pages k /\ length (g_requests s) = k /\
       (1 <= k)%nat /\ (length all <= k * 100)%nat /\
       (k = 1 \/ (k - 1) * 100 < length all)%nat) /\
     Forall2 resolved (g_added s) all /\
     exists done, done ≡ₚ finished s /\ Forall2 resolved done all) /\
  (length all = 150%nat -> st_orch s = OReturned None ->
     requested s = [0; 2] /\ length (g_requests s) = 2%nat /\
     length (g_added s) = 150%nat /\ st_total s = 150 /\
     PrintFound 150 ∈ st_log s /\
     Forall2 resolved (g_added s) all).
Proof.
  intros Hserved Hreach resolved.
  pose proof (paged_reachable _ _ _ _ Hserved Hreach) as Hp.
  assert (st_orch s = OReturned None ->
     g_added s = map (newTask config) all /\
     finished s ≡ₚ map (newTask config) all /\
     st_total s = Z.of_nat (length all) /\
     PrintFound (Z.of_nat (length all)) ∈ st_log s /\
     (exists k : nat,
       requested s = pages k /\ length (g_requests s) = k /\
       (1 <= k)%nat /\ (length all <= k * 100)%nat /\
       (k = 1 \/ (k - 1) * 100 < length all)%nat) /\
     Forall2 resolved (g_added s) all /\
     exists done, done ≡ₚ finished s /\ Forall2 resolved done all) as Hret.
  { intros Hr. unfold paged in Hp. rewrite Hr in Hp.
    destruct Hp as (k & Hk1 & Hreq & Hadd & Htot & Hle & Hmin & Hlog).
    destruct (returned_all_done _ _ _ Hreach Hr) as (_ & _ & Hperm).
    split_and!; try done.
    - by rewrite <- Hadd, Hperm.
    - exists k. split_and!; try done.
      apply (f_equal length) in Hreq. unfold requested, pages in Hreq.
      by rewrite !length_map, length_seq in Hreq.
    - rewrite Hadd. apply newTask_resolved.
    - exists (g_added s). split; [done|].
      rewrite Hadd. apply newTask_resolved. }
  split_and!; [|done|].
  - intros req resp Hin.
    assert (exists page, req = listRequest config page) as [page ->]; [|done].
    revert req resp Hin. clear -Hreach.
    induction Hreach as [|s l s' Hreach IH Hexec].
    + intros req resp Hin. by apply elem_of_nil in Hin.
    + by eapply requests_step.
  - intros Hlen Hr.
    destruct (Hret Hr)
      as (Hadd & _ & Htot & Hlog & (k & Hreq & Hk & Hk1 & Hle & Hmin) & Hres & _).
    rewrite Hlen in *.
    assert (k = 2%nat) as -> by lia.
    split_and!; try done.
    by rewrite Hadd, length_map.
Qed.
End Lister.

(** On the simulated host the listing never changes. *)
Lemma sim_update_listing w config task (wd : Sim.SimWorld) :
  let wd' := out_world (update (H := Sim.host) w config task wd) in
  Sim.sim_owner wd' = Sim.sim_owner wd /\
  Sim.sim_failing_pages wd' = Sim.sim_failing_pages wd.
Proof.
  destruct (update_world_cases (H := Sim.host) w config task wd)
    as [->| [-> | ->]]; [done| |]; cbn.
  - unfold Sim.PlainClone.
    destruct (Sim.denied _ wd); [done|].
    by destruct (Sim.assoc _ (Sim.sim_remote wd)).
  - unfold Sim.Pull.
    destruct (Sim.denied _ wd); [done|].
    destruct (Sim.assoc _ (Sim.sim_fs wd)) as [[|origin rev div]|]; try done.
    destruct (Sim.assoc origin (Sim.sim_remote wd)); [|done].
    destruct (bool_decide _); [done|]. by destruct div.
Qed.

Lemma sim_listing_reachable config (w : Sim.SimWorld) s :
  reachable (H := Sim.host) config w s ->
  Sim.sim_owner (st_world s) = Sim.sim_owner w /\
  Sim.sim_failing_pages (st_world s) = Sim.sim_failing_pages w.
Proof.
  induction 1 as [|s l s' Hreach IH Hexec]; [done|].
  exec_cases Hexec; state_simpl; try done.
  - match goal with E : os_MkdirAll _ _ = _ |- _ =>
      cbn in E; unfold Sim.MkdirAll in E end.
    repeat case_match; by simplify_eq.
  - match goal with E : os_MkdirAll _ _ = _ |- _ =>
      cbn in E; unfold Sim.MkdirAll in E end.
    repeat case_match; by simplify_eq.
  - match goal with E : os_MkdirAll _ _ = _ |- _ =>
      cbn in E; unfold Sim.MkdirAll in E end.
    repeat case_match; by simplify_eq.
  - destruct (sim_update_listing i config t (st_world s)) as [-> ->]. done.
Qed.

Lemma sim_served config (w : Sim.SimWorld) :
  Sim.sim_failing_pages w = [] ->
  served (H := Sim.host) config (Sim.sim_owner w) w.
Proof.
  intros Hfail s page Hreach.
  destruct (sim_listing_reachable _ _ _ Hreach) as [Hown Hf].
  cbn. unfold Sim.List. rewrite Hf, Hfail, Hown. cbn.
  rewrite bool_decide_eq_false_2 by (by intros ?%elem_of_nil).
  done.
Qed.

(** A full cycle over 150 repositories on the simulated host: two
    requests, 150 tasks, the first for "r0" at "/repos/r0" and the last for
    "r149" at "/repos/r149". *)
Lemma lister_fetches_all_pages_witness :
  let s := state_after (H := Sim.host) Scenario.cfg Account150.cycle
             Account150.world in
  served (H := Sim.host) Scenario.cfg Account150.repos Account150.world /\
  reachable (H := Sim.host) Scenario.cfg Account150.world s /\
  length Account150.repos = 150%nat /\
  st_orch s = OReturned None /\
  requested s = [0; 2] /\ length (g_added s) = 150%nat /\ st_total s = 150 /\
  map RepoPath (g_added s)
    = map (fun i : nat => "/repos/r" +:+ pretty i) (seq 0 150) /\
  map Repo (g_added s) = Account150.repos /\
  head (g_added s)
    = Some {| Repo := Scenario.repo "r0"; RepoPath := "/repos/r0" |} /\
  last (g_added s)
    = Some {| Repo := Scenario.repo "r149"; RepoPath := "/repos/r149" |}.
Proof.
  intros s.
  assert (served (H := Sim.host) Scenario.cfg Account150.repos Account150.world)
    as Hserved by (by apply (sim_served Scenario.cfg Account150.world)).
  assert (reachable (H := Sim.host) Scenario.cfg Account150.world s) as Hreach
    by apply (state_after_reachable (H := Sim.host) Scenario.cfg
                Account150.cycle Account150.world).
  assert (length Account150.repos = 150%nat) as Hlen
    by (vm_compute; reflexivity).
  assert (st_orch s = OReturned None) as Hret by (vm_compute; reflexivity).
  destruct (lister_fetches_all_pages (H := Sim.host) Scenario.cfg
              Account150.repos Account150.world s Hserved Hreach)
    as (_ & Hall & H150).
  destruct (H150 Hlen Hret) as (Hreq & _ & Hadd & Htot & _ & Hres).
  destruct (Hall Hret) as (Htasks & _).
  assert (map RepoPath (g_added s)
            = map (fun repo => filepath_Join (Host := Sim.host)
                                 (ReposDir Scenario.cfg) (Name repo))
                  Account150.repos) as Hpaths.
  { clear -Hres. induction Hres as [|t repo ts repos [_ Hp] _ IH]; [done|].
    cbn [map]. by rewrite Hp, IH. }
  assert (map Repo (g_added s) = Account150.repos) as Hrepos.
  { clear -Hres. induction Hres as [|t repo ts repos [Hr _] _ IH]; [done|].
    cbn [map]. by rewrite Hr, IH. }
  do 7 (split; [assumption|]).
  split; [rewrite Hpaths; vm_compute; reflexivity|].
  split; [exact Hrepos|].
  split; rewrite Htasks; vm_compute; reflexivity.
Defined.

(** * A cycle can run to its return *)
Section Progress.
Context {H : Host}.
Implicit Types (config : Config) (s : State) (l : Label).

Lemma run_app config ls1 ls2 s s1 :
  run config ls1 s = Some s1 ->
  run config (ls1 ++ ls2) s = run config ls2 s1.
Proof.
  revert s. induction ls1 as [|l ls1 IH]; intros s; cbn.
  - by intros [= ->].
  - destruct (exec config l s); [apply IH|done].
Qed.

Lemma task_round_runs config s r rest next :
  quiet s -> st_orch s = ORange (r :: rest) next ->
  exists s', run config task_round s = Some s' /\
    quiet s' /\ st_orch s' = ORange rest next /\
    g_requests s' = g_requests s.
Proof.
  intros [Hm Hq Hw Hc] Ho.
  unfold task_round. cbn [run].
  unfold exec at 1. unfold alive. rewrite Hm. unfold syncRepos. rewrite Ho.
  unfold exec at 1. unfold alive, handoff_step. state_simpl. rewrite Hm, Hq, Hw.
  unfold exec at 1. unfold alive, Worker_start. state_simpl. rewrite Hm.
  rewrite list_lookup_insert_eq by (by eapply lookup_lt_Some).
  unfold exec at 1. unfold alive, Worker_start. state_simpl. rewrite Hm.
  rewrite list_lookup_insert_eq
    by (rewrite length_insert; by eapply lookup_lt_Some).
  unfold exec at 1. unfold alive, Worker_start. state_simpl. rewrite Hm.
  rewrite list_lookup_insert_eq
    by (rewrite !length_insert; by eapply lookup_lt_Some).
  eexists. split; [reflexivity|].
  split; [|by destruct (out_err _)].
  destruct (out_err _); split; unfold logs; state_simpl; try done.
  all: try (rewrite list_lookup_insert_eq; [done|];
            rewrite !length_insert; by eapply lookup_lt_Some).
  all: lia.
Qed.

Lemma range_runs config s rest next :
  quiet s -> st_orch s = ORange rest next ->
  exists ls s', run config ls s = Some s' /\
    quiet s' /\ st_orch s' = ORange [] next /\
    g_requests s' = g_requests s.
Proof.
  revert s. induction rest as [|r rest IH]; intros s Hq Ho.
  - by exists [], s.
  - destruct (task_round_runs config s r rest next Hq Ho)
      as (s1 & Hrun1 & Hq1 & Ho1 & Hreq1).
    destruct (IH s1 Hq1 Ho1) as (ls & s2 & Hrun2 & Hq2 & Ho2 & Hreq2).
    exists (task_round ++ ls), s2. split_and!; try done.
    + by rewrite (run_app _ _ _ _ _ Hrun1).
    + congruence.
Qed.

Lemma listing_runs config all w :
  served config all w ->
  forall d s rest next,
    reachable config w s -> quiet s -> st_orch s = ORange rest next ->
    (length all - length (g_requests s) * 100 <= d)%nat ->
    exists ls s', run config ls s = Some s' /\ st_orch s' = OReturned None.
Proof.
  intros Hserved d.
  induction d as [|d IH]; intros s rest next Hreach Hq Ho Hd.
  all: destruct (range_runs config s rest next Hq Ho)
         as (ls1 & s1 & Hrun1 & [Hm1 Hq1 Hw1 Hc1] & Ho1 & Hreq1).
  all: pose proof (run_reachable _ _ _ _ _ Hreach Hrun1) as Hreach1.
  all: pose proof (paged_reachable _ _ _ _ Hserved Hreach1) as Hp.
  all: unfold paged, requested in Hp; rewrite Ho1 in Hp.
  all: destruct Hp as (k & j & Hk1 & Hpages & _ & _ & _ & _ & Hnext & _).
  all: assert (length (g_requests s1) = k) as Hk
         by (apply (f_equal length) in Hpages; unfold pages in Hpages;
             by rewrite !length_map, length_seq in Hpages).
  all: pose proof Hk as Hk'; rewrite Hreq1 in Hk'.
  all: case_bool_decide as Hlt; [|
         (* the last page: print the total, wait, return *)
         exists (ls1 ++ [TOrch; TOrch]); eexists;
         rewrite (run_app _ _ _ _ _ Hrun1); cbn [run];
         unfold exec at 1; unfold alive, syncRepos;
         rewrite Hm1, Ho1, Hnext; cbn [bool_decide decide_rel];
         rewrite bool_decide_eq_true_2 by done;
         unfold exec at 1; unfold alive, syncRepos, logs; state_simpl;
         rewrite Hm1, Hc1, bool_decide_eq_true_2 by done;
         split; reflexivity ].
  - lia.
  - (* another page follows *)
    destruct (exec config TOrch s1) as [s2|] eqn:Hex2.
    2: { unfold exec, alive, syncRepos in Hex2.
         rewrite Hm1, Ho1, bool_decide_eq_false_2 in Hex2 by lia. done. }
    assert (s2 = set_orch (OList next) s1) as ->.
    { unfold exec, alive, syncRepos in Hex2.
      rewrite Hm1, Ho1, bool_decide_eq_false_2 in Hex2 by lia.
      by injection Hex2. }
    pose proof (reach_step _ _ _ _ _ Hreach1 Hex2) as Hreach2.
    pose proof (Hserved _ next Hreach2) as Hlist. state_simpl.
    destruct (github_page all 100 next) as [repos next'] eqn:Hpage.
    set (s3 := set_orch (ORange repos next')
                 (set_total (st_total s1 + Z.of_nat (length repos))
                 (set_grequests (g_requests s1 ++
                    [(listRequest config next, inr (repos, next'))])
                    (set_orch (OList next) s1)))).
    assert (exec config TOrch (set_orch (OList next) s1) = Some s3) as Hex3.
    { unfold exec, alive, syncRepos. state_simpl. by rewrite Hm1, Hlist. }
    destruct (IH s3 repos next') as (ls & s' & Hrun & Hret).
    + by eapply reach_step.
    + by split.
    + done.
    + subst s3. state_simpl. rewrite length_app. cbn [length]. lia.
    + exists (ls1 ++ [TOrch; TOrch] ++ ls), s'.
      rewrite (run_app _ _ _ _ _ Hrun1). cbn [run app].
      by rewrite Hex2, Hex3.
Qed.

(** Without a signal a cycle can run to its return: with at least one
    worker, a capacity that is not negative and the root directory in
    place, against an account served in pages, there is a schedule from
    the start of the service on which [syncRepos] returns [nil]. *)
Theorem cycle_can_return config all w :
  served config all w ->
  (os_MkdirAll (ReposDir config) w).2 = None ->
  0 <= WorkQueueSize config -> 1 <= WorkerCount config ->
  exists ls s, run config ls (init w) = Some s /\ st_orch s = OReturned None.
Proof.
  intros Hserved Hmk Hcap Hworkers.
  destruct (os_MkdirAll (ReposDir config) w) as [w1 err] eqn:Hmkdir.
  cbn in Hmk. subst err.
  set (s1 := set_loop LSync (set_orch OStart (init w))).
  assert (exec config TLoop (init w) = Some s1) as Hex1 by done.
  set (s2 := start_cycle config (set_world w1 s1)).
  assert (exec config TOrch s1 = Some s2) as Hex2.
  { unfold exec, syncRepos. cbn. rewrite Hmkdir.
    by rewrite bool_decide_eq_false_2 by lia. }
  assert (reachable config w s2) as Hreach2.
  { eapply reach_step; [|exact Hex2]. eapply reach_step; [|exact Hex1].
    constructor. }
  pose proof (Hserved _ 0 Hreach2) as Hlist.
  destruct (github_page all 100 0) as [repos next] eqn:Hpage.
  set (s3 := set_orch (ORange repos next)
               (set_total (st_total s2 + Z.of_nat (length repos))
               (set_grequests (g_requests s2 ++
                  [(listRequest config 0, inr (repos, next))]) s2))).
  assert (exec config TOrch s2 = Some s3) as Hex3.
  { unfold exec, syncRepos. cbn. cbn in Hlist. by rewrite Hlist. }
  destruct (listing_runs config all w Hserved (length all) s3 repos next)
    as (ls & s' & Hrun & Hret).
  - by eapply reach_step.
  - split; try done. cbn.
    destruct (Z.to_nat (WorkerCount config)) eqn:Hn; [lia|done].
  - done.
  - lia.
  - exists ([TLoop; TOrch; TOrch] ++ ls), s'. cbn [run app].
    by rewrite Hex1, Hex2, Hex3.
Qed.

End Progress.

(** So it is on the simulated account of 150 repositories. *)
Lemma cycle_can_return_witness :
  served (H := Sim.host) Scenario.cfg Account150.repos Account150.world /\
  (os_MkdirAll (Host := Sim.host) (ReposDir Scenario.cfg)
     Account150.world).2 = None /\
  0 <= WorkQueueSize Scenario.cfg /\ 1 <= WorkerCount Scenario.cfg /\
  exists ls s,
    run (H := Sim.host) Scenario.cfg ls (init (H := Sim.host) Account150.world)
      = Some s /\
    st_orch s = OReturned None.
Proof.
  assert (served (H := Sim.host) Scenario.cfg Account150.repos
            Account150.world) as Hserved
    by (apply (sim_served Scenario.cfg Account150.world); reflexivity).
  assert ((os_MkdirAll (Host := Sim.host) (ReposDir Scenario.cfg)
             Account150.world).2 = None) as Hmk by reflexivity.
  assert (0 <= WorkQueueSize Scenario.cfg) as Hcap by (cbn; lia).
  assert (1 <= WorkerCount Scenario.cfg) as Hworkers by (cbn; lia).
  exact (conj Hserved (conj Hmk (conj Hcap (conj Hworkers
           (cycle_can_return (H := Sim.host) Scenario.cfg Account150.repos
              Account150.world Hserved Hmk Hcap Hworkers))))).
Defined.

(** * Where the service stops short *)

(** C3 on the code.  The request for the second page fails while the 100
    tasks of the first are in the channel: [syncRepos] returns the list
    error at once, without waiting, with all 100 tasks outstanding and none
    processed; no further page is asked for.  The run loop passes the error
    to [main], which cancels and returns: the process ends with the 100
    tasks still in the channel. *)
Theorem list_failure_returns_before_drain :
  let s := state_after (H := Sim.host) Scenario.cfg ListFailure.until_return
             ListFailure.world in
  let s' := state_after (H := Sim.host) Scenario.cfg ListFailure.until_exit
              ListFailure.world in
  (st_orch s = OReturned (Some (ErrList (ErrOther "service unavailable"))) /\
   requested s = [0; 2] /\
   length (st_queue s) = 100%nat /\ st_counter s = 100 /\
   length (g_added s) = 100%nat /\ g_done s = []) /\
  (st_main s' = MExited /\ length (st_queue s') = 100%nat /\ g_done s' = [] /\
   forall l, exec Scenario.cfg l s' = None).
Proof.
  intros s s'. split.
  - vm_compute. repeat split; reflexivity.
  - split; [vm_compute; reflexivity|]. split; [vm_compute; reflexivity|].
    split; [vm_compute; reflexivity|].
    intros l. apply exec_after_exit. vm_compute. reflexivity.
Qed.

(** C5 on the code.  At the failed request for the second page the cycle
    ends with the counter at 100: [syncRepos] has called [wg.Add] for the
    100 tasks of the first page, no worker has called [wg.Done], and the
    return of line 163 does not pass the [wg.Wait] of line 184.  The end of
    the cycle is reported, [main] logs its error, with the counter still
    at 100, and the process ends with it at 100: on this path the counter
    never reaches zero. *)
Theorem counter_left_at_list_failure :
  let e := ErrList (ErrOther "service unavailable") in
  let s := state_after (H := Sim.host) Scenario.cfg ListFailure.until_return
             ListFailure.world in
  let s1 := state_after (H := Sim.host) Scenario.cfg
              (ListFailure.until_return ++ [TLoop; TMainErr])
              ListFailure.world in
  let s' := state_after (H := Sim.host) Scenario.cfg ListFailure.until_exit
              ListFailure.world in
  (st_orch s = OReturned (Some e) /\ st_counter s = 100 /\
   length (outstanding s) = 100%nat /\ length (g_added s) = 100%nat /\
   g_done s = []) /\
  (last (st_log s1) = Some (LogSyncError e) /\ st_counter s1 = 100 /\
   g_done s1 = []) /\
  (st_main s' = MExited /\ st_counter s' = 100 /\ g_done s' = [] /\
   forall l, exec Scenario.cfg l s' = None).
Proof.
  intros e s s1 s'. split_and!.
  1-11: vm_compute; reflexivity.
  intros l. apply exec_after_exit. vm_compute. reflexivity.
Qed.

(** C4 on the code.  A signal arrives while worker 0 is inside
    [processRepo] and one task waits in the channel: [main] logs, cancels
    and returns, and the process ends with the clone of worker 0 never
    completed, the other task never taken, and nothing done. *)
Theorem signal_exits_with_tasks_in_flight :
  let s := state_after (H := Sim.host) Scenario.cfg Interrupt.until_exit
             Scenario.one_unreachable in
  let good := newTask (H := Sim.host) Scenario.cfg (Scenario.repo "good") in
  let bad := newTask (H := Sim.host) Scenario.cfg (Scenario.repo "bad") in
  st_main s = MExited /\
  st_workers s = [WProc good; WSelect] /\
  st_queue s = [bad] /\
  st_counter s = 2 /\
  g_done s = [] /\
  os_Stat (Host := Sim.host) (RepoPath good) (st_world s) = Some ErrNotExist /\
  st_log s = [LogShutdownSignal; LogServiceStopped] /\
  forall l, exec Scenario.cfg l s = None.
Proof.
  intros s good bad.
  do 7 (split; [vm_compute; reflexivity|]).
  intros l. apply exec_after_exit. vm_compute. reflexivity.
Qed.

(** * More properties of the running service *)

Section MoreCycle.
Context {H : Host}.
Implicit Types (config : Config) (s : State) (l : Label).

(** A worker that holds a task keeps the counter above zero. *)
Lemma held_counted s i wi :
  accounted s -> st_workers s !! i = Some wi -> held wi <> [] ->
  1 <= st_counter s.
Proof.
  intros [Ht Hc _ _] Hi Hheld.
  unfold outstanding, in_flight, finished in Ht.
  destruct (in_flight_insert _ _ _ WSelect Hi) as (others & E1 & _).
  rewrite E1 in Ht. apply Permutation_length in Ht.
  rewrite !length_app, length_map in Ht.
  destruct (held wi); [done|]. cbn [length] in Ht. lia.
Qed.

Lemma sequenced_step config s l s' :
  accounted s -> sequenced s -> exec config l s = Some s' -> sequenced s'.
Proof.
  intros Hacc [Hb Hi Hst He] Hexec.
  pose proof (acc_returned _ Hacc) as Hr.
  pose proof (acc_tasks _ Hacc) as Ht.
  pose proof (acc_counter _ Hacc) as Hc.
  exec_cases Hexec.
  all: split; state_simpl;
    try (use_state_eqs; cbn [between_cycles] in *;
         first [done | tauto | congruence | by intros ?; apply Hb
               | by intros ?; apply Hi | by intros ?; apply Hst
               | by intros ?; apply He
               | by intros Hbw; destruct (Hb Hbw) ]).
  all: try (match goal with E : st_workers _ !! _ = Some _ |- _ =>
              pose proof (held_counted _ _ _ Hacc E ltac:(done)) end;
            intros Ho; first [specialize (Hi Ho) | specialize (Hst Ho)]; lia).
Qed.

Lemma sequenced_reachable config w s : reachable config w s -> sequenced s.
Proof.
  induction 1 as [|s l s' Hreach IH Hexec]; [split; cbn; auto|].
  eapply sequenced_step; [|done..]. by eapply accounted_reachable.
Qed.

Lemma listed_snoc (reqs : list (ListRequest * ListResponse)) req resp :
  concat (map (fun p => answered (snd p)) (reqs ++ [(req, resp)]))
  = concat (map (fun p => answered (snd p)) reqs) ++ answered resp.
Proof. rewrite map_app, concat_app. cbn. by rewrite app_nil_r. Qed.

Lemma followed_step config s l s' :
  accounted s ->
  g_added s ++ map (newTask config) (remaining (st_orch s))
    = map (newTask config) (listed s) /\
  st_total s = Z.of_nat (length (listed s)) ->
  exec config l s = Some s' ->
  g_added s' ++ map (newTask config) (remaining (st_orch s'))
    = map (newTask config) (listed s') /\
  st_total s' = Z.of_nat (length (listed s')).
Proof.
  intros Hacc [Hadd Htot] Hexec. pose proof (acc_loop _ Hacc) as Hl.
  unfold listed in *.
  exec_cases Hexec; state_simpl; rewrite ?listed_snoc;
    use_state_eqs; cbn [remaining answered map] in *;
    rewrite ?app_nil_r in *; try done.
  - (* a cycle is entered: the run loop was outside syncRepos *)
    assert (idle (st_orch s)) as Hidle by (apply Hl; congruence).
    destruct (st_orch s); try done; cbn in Hadd; by rewrite app_nil_r in Hadd.
  - split; [by rewrite map_app, Hadd|rewrite length_app; lia].
  - split; [by rewrite <- app_assoc|done].
Qed.

Lemma found_step config s l s' :
  (st_orch s = OWait \/ st_orch s = OReturned None ->
   PrintFound (st_total s) ∈ st_log s) ->
  exec config l s = Some s' ->
  st_orch s' = OWait \/ st_orch s' = OReturned None ->
  PrintFound (st_total s') ∈ st_log s'.
Proof.
  intros Hfound Hexec.
  exec_cases Hexec; state_simpl;
    try (intros [?|?]; congruence); intros Ho.
  all: try (apply elem_of_app; right; by apply list_elem_of_singleton).
  all: try (apply elem_of_app; left).
  all: apply Hfound;
    first [done | by left | by right | left; congruence | right; congruence].
Qed.

(** The tasks of a cycle are the repositories of the pages it received:
    at every moment the tasks [wg.Add] was called for, followed by those
    for the rest of the current page, are the tasks of all repositories
    received so far, in order and each with its path under the root; the
    running total is their number.  After a [nil] return every one of them
    is done and the total printed is their number. *)
Theorem tasks_follow_listing config w s :
  reachable config w s ->
  g_added s ++ map (newTask config) (remaining (st_orch s))
    = map (newTask config) (listed s) /\
  st_total s = Z.of_nat (length (listed s)) /\
  (st_orch s = OReturned None ->
     finished s ≡ₚ map (newTask config) (listed s) /\
     PrintFound (Z.of_nat (length (listed s))) ∈ st_log s).
Proof.
  intros Hreach.
  assert (g_added s ++ map (newTask config) (remaining (st_orch s))
            = map (newTask config) (listed s) /\
          st_total s = Z.of_nat (length (listed s))) as [Hadd Htot].
  { induction Hreach as [|s l s' Hreach IH Hexec]; [done|].
    eapply followed_step; [|done..]. by eapply accounted_reachable. }
  split_and!; try done. intros Hret. split.
  - destruct (returned_all_done _ _ _ Hreach Hret) as (_ & _ & Hperm).
    rewrite <- Hperm, <- Hadd, Hret. cbn. by rewrite app_nil_r.
  - rewrite <- Htot. clear Hadd Htot.
    assert (st_orch s = OWait \/ st_orch s = OReturned None) as Ho by auto.
    revert Ho. clear Hret.
    induction Hreach as [|s l s' Hreach IH Hexec]; [by intros [?|?]|].
    by eapply found_step.
Qed.

(** When a cycle is entered nothing of the cycle before is left: the
    counter of its WaitGroup stands at zero, its channel is empty and every
    one of its workers stands at its [select] or has returned. *)
Theorem cycles_do_not_overlap config w s :
  reachable config w s -> st_orch s = OStart ->
  st_counter s = 0 /\ st_queue s = [] /\
  Forall (fun wi => wi = WSelect \/ wi = WExit) (st_workers s).
Proof.
  intros Hreach Ho.
  pose proof (seq_start _ (sequenced_reachable _ _ _ Hreach) Ho) as Hc.
  pose proof (outstanding_counted _ _ _ Hreach) as Hout.
  assert (outstanding s = []) as Hnil by (apply length_zero_iff_nil; lia).
  unfold outstanding in Hnil.
  apply app_eq_nil in Hnil as [_ Hnil]. apply app_eq_nil in Hnil as [Hq Hfl].
  split_and!; try done.
  unfold in_flight in Hfl. clear -Hfl.
  induction (st_workers s) as [|wi ws IH]; [done|].
  cbn in Hfl. apply app_eq_nil in Hfl as [Hwi Hws].
  constructor; [|by apply IH]. destruct wi; cbn in Hwi; auto; discriminate.
Qed.

(** An error of a cycle ends the syncing for good: once [syncRepos] has
    returned an error, whatever happens next no further cycle is entered
    and no further list request is made. *)
Theorem cycle_error_is_final config w s e ls s' :
  reachable config w s -> st_orch s = OReturned (Some e) ->
  run config ls s = Some s' ->
  st_orch s' = OReturned (Some e) /\ g_requests s' = g_requests s.
Proof.
  intros Hreach Ho. revert s Hreach Ho.
  induction ls as [|l ls IH]; intros s Hreach Ho Hrun; cbn in Hrun.
  - by injection Hrun as <-.
  - destruct (exec config l s) as [s1|] eqn:Hexec; [|discriminate].
    assert (st_orch s1 = OReturned (Some e) /\ g_requests s1 = g_requests s)
      as [Ho1 Hreq1].
    { pose proof (seq_between _ (sequenced_reachable _ _ _ Hreach)) as Hb.
      clear IH Hrun. exec_cases Hexec; state_simpl; try done; try congruence.
      all: use_state_eqs; cbn [between_cycles] in Hb;
        destruct (Hb I) as [?|?]; congruence. }
    rewrite <- Hreq1. apply (IH s1); try done. by eapply reach_step.
Qed.

(** An error of a cycle reaches [main]: with [main] at its [select], the
    run loop's send on [errorChan] does not block, and [main] logs the
    error, cancels and returns. *)
Theorem cycle_error_stops_service config w s e :
  reachable config w s -> st_orch s = OReturned (Some e) ->
  st_loop s = LSync -> st_main s = MSelect ->
  exists s', run config [TLoop; TMainErr; TMainExit] s = Some s' /\
    st_main s' = MExited /\
    st_log s' = st_log s ++ [LogSyncError e; LogServiceStopped].
Proof.
  intros Hreach Ho Hl Hm.
  pose proof (seq_error _ (sequenced_reachable _ _ _ Hreach)) as He.
  rewrite Hl in He. specialize (He ltac:(done)).
  cbn [run]. unfold exec at 1. unfold alive, loop_step. rewrite Hm, Hl, Ho, He.
  unfold exec at 1. unfold alive, main_step, logs. state_simpl. rewrite Hm.
  unfold exec at 1. unfold alive, main_step, logs. state_simpl.
  eexists. split; [reflexivity|]. state_simpl.
  split; [done|]. by rewrite <- app_assoc.
Qed.
End MoreCycle.

Section MoreLister.
Context {H : Host}.
Implicit Types (config : Config) (s : State) (l : Label).

Lemma nexts_snoc_ok (reqs : list (ListRequest * ListResponse)) req repos next :
  omap next_page (reqs ++ [(req, inr (repos, next))])
  = omap next_page reqs ++ [next].
Proof. by rewrite omap_app. Qed.

Lemma nexts_snoc_err (reqs : list (ListRequest * ListResponse)) req e :
  omap next_page (reqs ++ [(req, inl e)]) = omap next_page reqs.
Proof. rewrite omap_app. cbn. by rewrite app_nil_r. Qed.

Lemma chained_step config s l s' :
  accounted s -> chained s -> exec config l s = Some s' -> chained s'.
Proof.
  intros Hacc Hch Hexec. pose proof (acc_loop _ Hacc) as Hl.
  exec_cases Hexec; unfold chained, requested, nexts in *; state_simpl;
    rewrite ?nexts_snoc_ok, ?nexts_snoc_err, ?map_app;
    use_state_eqs; cbn [map fst snd lr_opt Page listRequest] in *; try done.
  - destruct Hch as [Hnz Hreq]. by eexists.
  - destruct Hch as (ns & E & Hnz & Hreq).
    match goal with E : bool_decide (next = 0) = true |- _ =>
      apply bool_decide_eq_true in E; subst next end.
    by exists ns.
  - destruct Hch as (ns & E & Hnz & Hreq).
    match goal with E : bool_decide (next = 0) = false |- _ =>
      apply bool_decide_eq_false in E end.
    rewrite E, Hreq. split; [|done].
    apply Forall_app. split; [done|]. by constructor.
Qed.

(** The pages asked for in a cycle: the unset page first, then the
    [NextPage] of each answer, and no page after an answer whose [NextPage]
    is 0 or after a request that failed.  A cycle goes on to wait for its
    tasks exactly when the last answer had [NextPage] 0. *)
Theorem lister_follows_next_page config w s :
  reachable config w s ->
  match st_orch s with
  | OList page =>
      Forall (fun n => n <> 0) (nexts s) /\
      requested s ++ [page] = 0 :: nexts s
  | ORange _ next | OSend _ _ next =>
      exists ns, nexts s = ns ++ [next] /\
        Forall (fun n => n <> 0) ns /\ requested s = 0 :: ns
  | OWait | OReturned None =>
      exists ns, nexts s = ns ++ [0] /\
        Forall (fun n => n <> 0) ns /\ requested s = 0 :: ns
  | OReturned (Some (ErrList _)) =>
      Forall (fun n => n <> 0) (nexts s) /\ requested s = 0 :: nexts s
  | OIdle | OStart | OReturned (Some _) => True
  end.
Proof.
  intros Hreach. change (chained s).
  induction Hreach as [|s l s' Hreach IH Hexec]; [done|].
  eapply chained_step; [|done..]. by eapply accounted_reachable.
Qed.
End MoreLister.

Section MoreChannel.
Context {H : Host}.
Implicit Types (config : Config) (s : State) (l : Label).

(** [tasksChan] never holds more tasks than its capacity, and it is open
    as long as [syncRepos] lists and sends: no send meets a closed channel.
    A cycle that returned [nil] has closed it. *)
Theorem channel_bounded_and_open config w s :
  reachable config w s ->
  (length (st_queue s) <= capacity config)%nat /\
  (listing (st_orch s) -> st_closed s = false) /\
  (st_orch s = OReturned None -> st_closed s = true).
Proof.
  induction 1 as [|s l s' Hreach (Hcap & Hopen & Hret) Hexec].
  { cbn. split_and!; [lia|done..]. }
  exec_cases Hexec; state_simpl; use_state_eqs; cbn [listing] in *;
    (split_and!; [..|try done|try done]);
    try done; try (by intros; apply Hopen); try (cbn; lia).
  - match goal with E : bool_decide _ = true |- _ =>
      apply bool_decide_eq_true in E end.
    rewrite length_app. cbn. lia.
  - cbn in Hcap. lia.
  - intros Hl. by specialize (Hopen Hl).
Qed.

(** A cycle is served by exactly [WorkerCount] workers (none when the
    count is not positive), and every task done in it was done by one of
    them. *)
Theorem workers_as_configured config w s :
  reachable config w s ->
  (listing (st_orch s) \/ st_orch s = OReturned None ->
   length (st_workers s) = Z.to_nat (WorkerCount config)) /\
  (forall i t r, (i, t, r) ∈ g_done s -> (i < length (st_workers s))%nat).
Proof.
  induction 1 as [|s l s' Hreach (Hlen & Hdone) Hexec].
  { split; [by intros [?|?]|]. intros ? ? ? Hin. by apply elem_of_nil in Hin. }
  pose proof (acc_loop _ (accounted_reachable _ _ _ Hreach)) as Hl.
  exec_cases Hexec; state_simpl; rewrite ?length_insert, ?length_replicate;
    use_state_eqs; cbn [listing] in *; (split; [|try done]);
    try done; try (intros _; apply Hlen; auto; fail);
    try (by intros [?|?]).
  - intros ? ? ? Hin. by apply elem_of_nil in Hin.
  - intros i0 t0 r [Hin|Hin]%elem_of_app; [by eapply Hdone|].
    apply list_elem_of_singleton in Hin. simplify_eq.
    by eapply lookup_lt_Some.
  - intros i0 t0 r [Hin|Hin]%elem_of_app; [by eapply Hdone|].
    apply list_elem_of_singleton in Hin. simplify_eq.
    by eapply lookup_lt_Some.
Qed.

Lemma followed_reachable config w s :
  reachable config w s ->
  g_added s ++ map (newTask config) (remaining (st_orch s))
    = map (newTask config) (listed s).
Proof.
  intros Hreach.
  assert (g_added s ++ map (newTask config) (remaining (st_orch s))
            = map (newTask config) (listed s) /\
          st_total s = Z.of_nat (length (listed s))) as [Hadd _]; [|done].
  induction Hreach as [|s l s' Hreach IH Hexec]; [done|].
  eapply followed_step; [|done..]. by eapply accounted_reachable.
Qed.

(** With a worker count that is not positive there are no workers and no
    task is ever done: a cycle returns [nil] only when every page it
    received was empty, and waits for ever otherwise. *)
Theorem no_workers_no_progress config w s :
  WorkerCount config <= 0 ->
  reachable config w s ->
  st_workers s = [] /\ g_done s = [] /\
  (st_orch s = OReturned None -> listed s = []).
Proof.
  intros Hwc Hreach.
  assert (st_workers s = [] /\ g_done s = []) as [Hws Hdone].
  { clear -Hwc Hreach.
    induction Hreach as [|s l s' Hreach [Hws Hdone] Hexec]; [done|].
    exec_cases Hexec; state_simpl; try done.
    all: try (match goal with E : st_workers _ !! _ = Some _ |- _ =>
                rewrite Hws in E; discriminate E end).
    assert (Z.to_nat (WorkerCount config) = 0%nat) as -> by lia. done. }
  split_and!; try done. intros Hret.
  destruct (returned_all_done _ _ _ Hreach Hret) as (_ & _ & Hperm).
  pose proof (followed_reachable _ _ _ Hreach) as Hadd.
  unfold finished in Hperm. rewrite Hdone in Hperm. cbn in Hperm.
  apply Permutation_nil_r in Hperm.
  rewrite Hperm, Hret in Hadd. cbn in Hadd.
  symmetry in Hadd. by apply map_eq_nil in Hadd.
Qed.

(** With a negative queue capacity [syncRepos] never gets to list: it
    either returns the error of [os.MkdirAll] or panics in [make], which
    ends the process. *)
Theorem negative_capacity_panics config w s :
  WorkQueueSize config < 0 ->
  reachable config w s ->
  g_requests s = [] /\
  ~ listing (st_orch s) /\ st_orch s <> OReturned None /\
  (forall s', exec config TOrch s = Some s' ->
     st_main s' = MPanicked \/
     exists e, st_orch s' = OReturned (Some (ErrMkdir e))).
Proof.
  intros Hcap Hreach.
  assert (g_requests s = [] /\
          (st_orch s = OIdle \/ st_orch s = OStart \/
           exists e, st_orch s = OReturned (Some (ErrMkdir e))))
    as [Hreq Ho].
  { clear -Hcap Hreach.
    induction Hreach as [|s l s' Hreach [Hreq Ho] Hexec]; [by split; auto|].
    exec_cases Hexec; state_simpl; use_state_eqs; split; try done; eauto.
    all: try (match goal with E : bool_decide _ = false |- _ =>
                apply bool_decide_eq_false in E; lia end).
    all: destruct Ho as [?|[?|[? ?]]]; discriminate. }
  split_and!; try done.
  - destruct Ho as [->|[->|[e ->]]]; cbn; tauto.
  - destruct Ho as [->|[->|[e ->]]]; discriminate.
  - intros s' Hexec. unfold exec, syncRepos in Hexec.
    destruct (alive s); [|discriminate].
    destruct Ho as [Ho|[Ho|[e Ho]]]; rewrite Ho in Hexec; try discriminate.
    destruct (os_MkdirAll _ _) as [w1 [e|]]; simplify_eq; cbn; eauto.
    rewrite bool_decide_eq_true_2 in Hexec by done.
    simplify_eq. by left.
Qed.

(** On a signal [main] returns without waiting for anything: from any
    state with [main] at its [select], the signal, the cancel and the
    return go through, and what is in the channel, what the workers hold,
    the counter and the files are as they were. *)
Theorem signal_exit_never_waits config s :
  st_main s = MSelect ->
  exists s', run config [TSignal; TMainSig; TMainExit] s = Some s' /\
    st_main s' = MExited /\
    st_workers s' = st_workers s /\ st_queue s' = st_queue s /\
    st_counter s' = st_counter s /\ st_world s' = st_world s /\
    st_log s' = st_log s ++ [LogShutdownSignal; LogServiceStopped].
Proof.
  intros Hm. cbn [run].
  unfold exec at 1. unfold alive. rewrite Hm.
  unfold exec at 1. unfold alive, main_step, logs. state_simpl. rewrite Hm.
  unfold exec at 1. unfold alive, main_step, logs. state_simpl.
  eexists. split; [reflexivity|]. state_simpl.
  split_and!; try done. by rewrite <- app_assoc.
Qed.

End MoreChannel.

Ltac on_path :=
  repeat (apply List.Forall_cons; [reflexivity|]); apply List.Forall_nil.

Section MoreUpdater.
Context {H : Host}.

(** The updater looks at and changes nothing but the path of its task:
    every call it makes is about that path, the first is the existence
    check, and there are at most four. *)
Theorem update_stays_on_its_path w config task wd :
  let o := update w config task wd in
  Forall (fun c => call_path c = RepoPath task) (out_calls o) /\
  head (out_calls o) = Some (CallStat (RepoPath task) (os_Stat (RepoPath task) wd)) /\
  (length (out_calls o) <= 4)%nat.
Proof.
  unfold_update.
  destruct (os_Stat (RepoPath task) wd) as [[]|]; cbn.
  3: { destruct (git_PlainClone _ _ wd) as [wd' [e|]]; cbn;
       (split; [on_path|split; [done|cbn; lia]]). }
  all: destruct (git_PlainOpen _ wd) as [e|]; cbn;
         [split; [on_path|split; [done|cbn; lia]]|].
  all: destruct (git_Worktree _ wd) as [e|]; cbn;
         [split; [on_path|split; [done|cbn; lia]]|].
  all: destruct (git_Pull _ _ wd) as [wd' [[]|]]; cbn;
         repeat (case_bool_decide; try done; cbn);
         (split; [on_path|split; [done|cbn; lia]]).
Qed.

End MoreUpdater.

(** * Properties of the sequential variant *)

Ltac unfold_sequential :=
  unfold Sequential.updateRepo, Sequential.check, Sequential.bind,
    Sequential.observe, Sequential.perform, Sequential.logf, Sequential.ret,
    Sequential.throw, Sequential.attempt, Sequential.start in *;
  cbn [Sequential.run_world Sequential.run_log Sequential.run_calls
       fst snd] in *.

Section SequentialFacts.
Context {H : Sequential.Host}.
Implicit Types (config : Sequential.Config) (r : Sequential.Run).

(** Whatever [updateRepo] answers, it leaves the log and the calls made
    before in place, adds exactly one existence check, on its path, and
    neither creates a directory nor lists. *)
Lemma updateRepo_calls path repo r :
  let r' := (Sequential.updateRepo path repo r).1 in
  omap Sequential.stat_path (Sequential.run_calls r')
    = omap Sequential.stat_path (Sequential.run_calls r) ++ [path] /\
  omap Sequential.mkdir_path (Sequential.run_calls r')
    = omap Sequential.mkdir_path (Sequential.run_calls r) /\
  omap Sequential.list_user (Sequential.run_calls r')
    = omap Sequential.list_user (Sequential.run_calls r) /\
  omap Sequential.repo_error (Sequential.run_log r')
    = omap Sequential.repo_error (Sequential.run_log r).
Proof.
  unfold_sequential.
  destruct (Sequential.os_Stat path _) as [[]|]; cbn.
  3: { destruct (Sequential.git_PlainClone _ _ _) as [wd' [e|]]; cbn;
       rewrite !omap_app; cbn; by rewrite ?app_nil_r, <- ?app_assoc. }
  all: destruct (Sequential.git_PlainOpen _ _) as [e|]; cbn;
         [rewrite !omap_app; cbn; by rewrite ?app_nil_r, <- ?app_assoc|].
  all: destruct (Sequential.git_Worktree _ _) as [e|]; cbn;
         [rewrite !omap_app; cbn; by rewrite ?app_nil_r, <- ?app_assoc|].
  all: destruct (Sequential.git_Pull _ _) as [wd' [[]|]]; cbn;
         repeat (case_bool_decide; try done; cbn);
         rewrite !omap_app; cbn; by rewrite ?app_nil_r, <- ?app_assoc.
Qed.

(** In the sequential variant a pull refused as not a fast-forward fails
    the update, like any pull error but "already up to date"; in the
    clone branch the error of the clone, if any, is the result; an open or
    work-tree error is returned before any pull. *)
Theorem sequential_updateRepo_result path repo wd :
  let o := Sequential.updateRepo path repo (Sequential.start wd) in
  match Sequential.os_Stat path wd with
  | Some ErrNotExist =>
      let cl := Sequential.git_PlainClone path (CloneURL repo) wd in
      Sequential.run_world o.1 = cl.1 /\
      o.2 = match cl.2 with Some e => inl (ErrClone e) | None => inr tt end
  | _ =>
      match Sequential.git_PlainOpen path wd,
            Sequential.git_Worktree path wd with
      | Some e, _ => Sequential.run_world o.1 = wd /\ o.2 = inl (ErrOpen e)
      | None, Some e =>
          Sequential.run_world o.1 = wd /\ o.2 = inl (ErrWorktree e)
      | None, None =>
          let pl := Sequential.git_Pull path wd in
          Sequential.run_world o.1 = pl.1 /\
          o.2 = match pl.2 with
                | None | Some NoErrAlreadyUpToDate => inr tt
                | Some e => inl (ErrPull e)
                end
      end
  end.
Proof.
  unfold_sequential.
  destruct (Sequential.os_Stat path wd) as [[]|]; cbn.
  3: by destruct (Sequential.git_PlainClone _ _ wd) as [wd' [e|]].
  all: destruct (Sequential.git_PlainOpen _ wd) as [e|]; cbn; [done|].
  all: destruct (Sequential.git_Worktree _ wd) as [e|]; cbn; [done|].
  all: by destruct (Sequential.git_Pull _ wd) as [wd' [[]|]].
Qed.

(** The loop over the repositories listed never fails; it checks each
    path once, in listing order, and the errors it logs are of listed
    repositories, in listing order. *)
Lemma range_calls config repos r r' res :
  Sequential.range config repos r = (r', res) ->
  res = inr tt /\
  omap Sequential.stat_path (Sequential.run_calls r')
    = omap Sequential.stat_path (Sequential.run_calls r)
      ++ map (fun repo => Sequential.filepath_Join
                            (Sequential.ReposDir config) (Name repo)) repos /\
  omap Sequential.mkdir_path (Sequential.run_calls r')
    = omap Sequential.mkdir_path (Sequential.run_calls r) /\
  omap Sequential.list_user (Sequential.run_calls r')
    = omap Sequential.list_user (Sequential.run_calls r) /\
  exists errs,
    omap Sequential.repo_error (Sequential.run_log r')
      = omap Sequential.repo_error (Sequential.run_log r) ++ errs /\
    sublist (map fst errs) (map Name repos).
Proof.
  revert r. induction repos as [|repo rest IH]; intros r Heq.
  { cbn in Heq. unfold Sequential.ret in Heq. simplify_eq.
    split_and!; try done; [by rewrite app_nil_r|].
    exists []. by rewrite app_nil_r. }
  cbn -[Sequential.updateRepo] in Heq.
  unfold Sequential.bind at 1 in Heq. unfold Sequential.attempt in Heq.
  destruct (updateRepo_calls
              (Sequential.filepath_Join (Sequential.ReposDir config) (Name repo))
              repo r) as (Hs & Hm & Hl & He).
  destruct (Sequential.updateRepo _ repo r) as [r1 [e|[]]];
    cbn -[Sequential.updateRepo] in *.
  all: try unfold Sequential.bind at 1 in Heq;
       unfold Sequential.logf, Sequential.ret in Heq; cbn in Heq.
  all: apply IH in Heq as (Hres & Hs' & Hm' & Hl' & errs & He' & Hsub);
       cbn in *.
  all: split_and!; try done; try congruence.
  all: try (rewrite Hs', Hs, <- app_assoc; done).
  - exists ((Name repo, e) :: errs). split.
    + rewrite He', omap_app, He. cbn. by rewrite <- app_assoc.
    + cbn. by apply sublist_skip.
  - exists errs. split; [congruence|]. by apply sublist_cons.
Qed.

(** Neither an update nor the loop over the repositories logs a sync
    error. *)
Lemma updateRepo_log path repo r :
  omap Sequential.sync_error
    (Sequential.run_log (Sequential.updateRepo path repo r).1)
    = omap Sequential.sync_error (Sequential.run_log r).
Proof.
  unfold_sequential.
  destruct (Sequential.os_Stat path _) as [[]|]; cbn.
  3: { destruct (Sequential.git_PlainClone _ _ _) as [wd' [e|]]; cbn;
       rewrite !omap_app; cbn; by rewrite ?app_nil_r. }
  all: destruct (Sequential.git_PlainOpen _ _) as [e|]; cbn;
         [rewrite !omap_app; cbn; by rewrite ?app_nil_r|].
  all: destruct (Sequential.git_Worktree _ _) as [e|]; cbn;
         [rewrite !omap_app; cbn; by rewrite ?app_nil_r|].
  all: destruct (Sequential.git_Pull _ _) as [wd' [[]|]]; cbn;
         repeat (case_bool_decide; try done; cbn);
         rewrite !omap_app; cbn; by rewrite ?app_nil_r.
Qed.

Lemma range_log config repos r r' res :
  Sequential.range config repos r = (r', res) ->
  omap Sequential.sync_error (Sequential.run_log r')
    = omap Sequential.sync_error (Sequential.run_log r).
Proof.
  revert r. induction repos as [|repo rest IH]; intros r Heq.
  { cbn in Heq. unfold Sequential.ret in Heq. by simplify_eq. }
  cbn -[Sequential.updateRepo] in Heq.
  unfold Sequential.bind at 1 in Heq. unfold Sequential.attempt in Heq.
  pose proof (updateRepo_log
                (Sequential.filepath_Join (Sequential.ReposDir config)
                   (Name repo)) repo r) as Hlog.
  destruct (Sequential.updateRepo _ repo r) as [r1 [e|[]]];
    cbn -[Sequential.updateRepo] in *.
  all: try unfold Sequential.bind at 1 in Heq;
       unfold Sequential.logf, Sequential.ret in Heq; cbn in Heq.
  all: apply IH in Heq; cbn in Heq; rewrite Heq, ?omap_app, Hlog; cbn;
       by rewrite ?app_nil_r.
Qed.

(** A cycle of the sequential variant fails only on the directory or on
    the list request, and then before any repository is looked at; once
    the list is there it returns nil whatever the updates answer, having
    asked once, for the configured user, and checked the path of every
    listed repository once, in listing order. *)
Theorem sequential_cycle_outcome config wd :
  let o := Sequential.syncRepos config (Sequential.start wd) in
  let made := Sequential.os_MkdirAll (Sequential.ReposDir config) wd in
  let calls := Sequential.run_calls o.1 in
  omap Sequential.mkdir_path calls = [Sequential.ReposDir config] /\
  match made.2 with
  | Some e =>
      o.2 = inl (ErrMkdir e) /\ omap Sequential.list_user calls = [] /\
      omap Sequential.stat_path calls = [] /\ Sequential.run_log o.1 = []
  | None =>
      omap Sequential.list_user calls = [Sequential.GithubUser config] /\
      match Sequential.Repositories_List (Sequential.GithubToken config)
              (Sequential.GithubUser config) made.1 with
      | inl e =>
          o.2 = inl (ErrList e) /\ omap Sequential.stat_path calls = [] /\
          Sequential.run_log o.1 = []
      | inr repos =>
          o.2 = inr tt /\
          omap Sequential.stat_path calls
            = map (fun repo => Sequential.filepath_Join
                                 (Sequential.ReposDir config) (Name repo))
                  repos /\
          sublist
            (map fst (omap Sequential.repo_error (Sequential.run_log o.1)))
            (map Name repos)
      end
  end.
Proof.
  cbn zeta.
  destruct (Sequential.syncRepos config (Sequential.start wd))
    as [r' res] eqn:Heq.
  unfold Sequential.syncRepos, Sequential.bind, Sequential.observe,
    Sequential.perform, Sequential.check, Sequential.ret, Sequential.throw,
    Sequential.start in Heq.
  cbn -[Sequential.range] in Heq.
  destruct (Sequential.os_MkdirAll _ wd) as [wd1 [e|]];
    cbn -[Sequential.range] in *; [by simplify_eq|].
  destruct (Sequential.Repositories_List _ _ wd1) as [e|repos];
    cbn -[Sequential.range] in *; [by simplify_eq|].
  apply range_calls in Heq as (Hres & Hs & Hm & Hl & errs & He & Hsub).
  cbn in *. rewrite Hm, Hl, Hs, He. by split_and!.
Qed.

(** A cycle started in any run adds one directory call and answers nil,
    a directory error or a list error; it logs no sync error itself. *)
Lemma syncRepos_calls config r r' res :
  Sequential.syncRepos config r = (r', res) ->
  omap Sequential.mkdir_path (Sequential.run_calls r')
    = omap Sequential.mkdir_path (Sequential.run_calls r)
      ++ [Sequential.ReposDir config] /\
  omap Sequential.sync_error (Sequential.run_log r')
    = omap Sequential.sync_error (Sequential.run_log r) /\
  match res with
  | inr _ => True
  | inl e => ~ is_task_error e
  end.
Proof.
  intros Heq.
  unfold Sequential.syncRepos, Sequential.bind, Sequential.observe,
    Sequential.perform, Sequential.check, Sequential.ret, Sequential.throw
    in Heq.
  cbn -[Sequential.range] in Heq.
  destruct (Sequential.os_MkdirAll _ _) as [wd1 [e|]];
    cbn -[Sequential.range] in *.
  { simplify_eq. cbn. rewrite omap_app. cbn. tauto. }
  destruct (Sequential.Repositories_List _ _ wd1) as [e|repos];
    cbn -[Sequential.range] in *.
  { simplify_eq. cbn. rewrite !omap_app. cbn. rewrite ?app_nil_r. tauto. }
  pose proof (range_log config repos _ _ _ Heq) as Hlog.
  apply range_calls in Heq as (Hres & Hs & Hm & Hl & _).
  cbn in *. rewrite Hm, Hlog, Hres, !omap_app. cbn.
  rewrite ?app_nil_r. tauto.
Qed.

(** The loop of [main] of the sequential variant goes on after a failed
    cycle: [n] rounds start [n] cycles, each with the directory call, and
    every sync error logged on the way is a directory or a list error,
    never the error of an update. *)
Theorem sequential_loop_goes_on config n wd :
  let o := Sequential.main_loop n config (Sequential.start wd) in
  omap Sequential.mkdir_path (Sequential.run_calls o.1)
    = replicate n (Sequential.ReposDir config) /\
  Forall (fun e => ~ is_task_error e)
    (omap Sequential.sync_error (Sequential.run_log o.1)).
Proof.
  cbn zeta.
  enough (forall r r' res,
    Sequential.main_loop n config r = (r', res) ->
    omap Sequential.mkdir_path (Sequential.run_calls r')
      = omap Sequential.mkdir_path (Sequential.run_calls r)
        ++ replicate n (Sequential.ReposDir config) /\
    (Forall (fun e => ~ is_task_error e)
       (omap Sequential.sync_error (Sequential.run_log r)) ->
     Forall (fun e => ~ is_task_error e)
       (omap Sequential.sync_error (Sequential.run_log r')))) as Hloop.
  { destruct (Sequential.main_loop n config (Sequential.start wd))
      as [r' res] eqn:Heq.
    apply Hloop in Heq as [Hm Hlog]. cbn in *. split; [done|].
    apply Hlog. constructor. }
  induction n as [|n IH]; intros r r' res Heq.
  { cbn in Heq. unfold Sequential.ret in Heq. simplify_eq.
    split; [by rewrite app_nil_r|done]. }
  cbn -[Sequential.syncRepos] in Heq.
  unfold Sequential.bind at 1 in Heq. unfold Sequential.attempt in Heq.
  destruct (Sequential.syncRepos config r) as [r1 res1] eqn:Hsync.
  apply syncRepos_calls in Hsync as (Hm & Hlog & Hres).
  destruct res1 as [e|[]]; cbn -[Sequential.syncRepos] in Heq.
  all: try unfold Sequential.bind at 1 in Heq;
       unfold Sequential.logf, Sequential.ret in Heq;
       cbn -[Sequential.syncRepos] in Heq.
  all: apply IH in Heq as [Hm' Hlog']; cbn in *.
  all: split;
         [rewrite Hm', Hm, <- app_assoc; done
         |intros Hold; apply Hlog'; rewrite ?omap_app, Hlog; cbn;
          rewrite ?Forall_app; repeat split; auto].
Qed.
End SequentialFacts.

(** * The properties on the scenarios *)

Lemma run_state_after {H : Host} (config : Config) ls1 ls2 (w : World) :
  runs config (ls1 ++ ls2) w = true ->
  run config ls2 (state_after config ls1 w)
    = Some (state_after config (ls1 ++ ls2) w).
Proof.
  unfold runs, state_after. intros Hruns.
  destruct (run config ls1 (init w)) as [s1|] eqn:Hrun1.
  - rewrite (run_app _ _ ls2 _ _ Hrun1) in *. cbn.
    by destruct (run config ls2 s1).
  - exfalso. revert Hrun1 Hruns. generalize (init w).
    induction ls1 as [|l ls1 IH]; intros s; cbn; [done|].
    destruct (exec config l s); [apply IH|done].
Qed.

(** The cycle with one failing clone: both listed repositories were
    enqueued and finished, and the total printed is 2. *)
Lemma tasks_follow_listing_witness :
  let s := state_after (H := Sim.host) Scenario.cfg Scenario.one_cycle
             Scenario.one_unreachable in
  reachable (H := Sim.host) Scenario.cfg Scenario.one_unreachable s /\
  st_orch s = OReturned None /\
  finished s ≡ₚ map (newTask (H := Sim.host) Scenario.cfg) (listed s) /\
  PrintFound 2 ∈ st_log s.
Proof.
  intros s.
  assert (reachable (H := Sim.host) Scenario.cfg Scenario.one_unreachable s)
    as Hreach by apply (state_after_reachable (H := Sim.host)).
  assert (st_orch s = OReturned None) as Hret by (vm_compute; reflexivity).
  assert (Z.of_nat (length (listed s)) = 2) as Hlen
    by (vm_compute; reflexivity).
  destruct (tasks_follow_listing (H := Sim.host) Scenario.cfg
              Scenario.one_unreachable s Hreach) as (_ & _ & Hdone).
  destruct (Hdone Hret) as [Hfin Hlog]. rewrite Hlen in Hlog.
  exact (conj Hreach (conj Hret (conj Hfin Hlog))).
Defined.

(** The second cycle is entered with nothing left of the first. *)
Lemma cycles_do_not_overlap_witness :
  let s := state_after (H := Sim.host) Scenario.cfg SecondCycle.entry
             Scenario.one_unreachable in
  reachable (H := Sim.host) Scenario.cfg Scenario.one_unreachable s /\
  st_orch s = OStart /\ length (g_done s) = 2%nat /\
  st_counter s = 0 /\ st_queue s = [].
Proof.
  intros s.
  assert (reachable (H := Sim.host) Scenario.cfg Scenario.one_unreachable s)
    as Hreach by apply (state_after_reachable (H := Sim.host)).
  assert (st_orch s = OStart) as Hstart by (vm_compute; reflexivity).
  assert (length (g_done s) = 2%nat) as Hdone by (vm_compute; reflexivity).
  destruct (cycles_do_not_overlap (H := Sim.host) Scenario.cfg
              Scenario.one_unreachable s Hreach Hstart) as (Hc & Hq & _).
  exact (conj Hreach (conj Hstart (conj Hdone (conj Hc Hq)))).
Defined.

(** After the failed request for page 2 a worker still takes a task and
    the run loop hands the error over; the cycle stays returned. *)
Lemma cycle_error_is_final_witness :
  let e := ErrList (ErrOther "service unavailable") in
  let s := state_after (H := Sim.host) Scenario.cfg ListFailure.until_return
             ListFailure.world in
  let s' := state_after (H := Sim.host) Scenario.cfg
              (ListFailure.until_return ++ AfterListFailure.steps)
              ListFailure.world in
  reachable (H := Sim.host) Scenario.cfg ListFailure.world s /\
  st_orch s = OReturned (Some e) /\
  run (H := Sim.host) Scenario.cfg AfterListFailure.steps s = Some s' /\
  st_orch s' = OReturned (Some e) /\ g_requests s' = g_requests s.
Proof.
  intros e s s'.
  assert (reachable (H := Sim.host) Scenario.cfg ListFailure.world s)
    as Hreach by apply (state_after_reachable (H := Sim.host)).
  assert (st_orch s = OReturned (Some e)) as Herr by (vm_compute; reflexivity).
  assert (run (H := Sim.host) Scenario.cfg AfterListFailure.steps s = Some s')
    as Hrun.
  { apply (run_state_after (H := Sim.host)). vm_compute. reflexivity. }
  exact (conj Hreach (conj Herr (conj Hrun
           (cycle_error_is_final (H := Sim.host) Scenario.cfg
              ListFailure.world s e AfterListFailure.steps s'
              Hreach Herr Hrun)))).
Defined.

(** The failed request for page 2: the run loop hands the error to
    [main], which logs it, cancels and returns. *)
Lemma cycle_error_stops_service_witness :
  let e := ErrList (ErrOther "service unavailable") in
  let s := state_after (H := Sim.host) Scenario.cfg ListFailure.until_return
             ListFailure.world in
  reachable (H := Sim.host) Scenario.cfg ListFailure.world s /\
  st_orch s = OReturned (Some e) /\ st_loop s = LSync /\
  st_main s = MSelect /\
  exists s', run (H := Sim.host) Scenario.cfg [TLoop; TMainErr; TMainExit] s
               = Some s' /\
    st_main s' = MExited /\
    st_log s' = st_log s ++ [LogSyncError e; LogServiceStopped].
Proof.
  intros e s.
  assert (reachable (H := Sim.host) Scenario.cfg ListFailure.world s)
    as Hreach by apply (state_after_reachable (H := Sim.host)).
  assert (st_orch s = OReturned (Some e)) as Herr by (vm_compute; reflexivity).
  assert (st_loop s = LSync) as Hloop by (vm_compute; reflexivity).
  assert (st_main s = MSelect) as Hmain by (vm_compute; reflexivity).
  exact (conj Hreach (conj Herr (conj Hloop (conj Hmain
           (cycle_error_stops_service (H := Sim.host) Scenario.cfg
              ListFailure.world s e Hreach Herr Hloop Hmain))))).
Defined.

(** The cycle over 150 repositories: the pages asked for are the unset
    one and 2, the next pages answered 2 and 0. *)
Lemma lister_follows_next_page_witness :
  let s := state_after (H := Sim.host) Scenario.cfg Account150.cycle
             Account150.world in
  reachable (H := Sim.host) Scenario.cfg Account150.world s /\
  st_orch s = OReturned None /\
  exists ns, nexts s = ns ++ [0] /\ requested s = 0 :: ns.
Proof.
  intros s.
  assert (reachable (H := Sim.host) Scenario.cfg Account150.world s)
    as Hreach by apply (state_after_reachable (H := Sim.host)).
  assert (st_orch s = OReturned None) as Hret by (vm_compute; reflexivity).
  pose proof (lister_follows_next_page (H := Sim.host) Scenario.cfg
                Account150.world s Hreach) as Hpages.
  rewrite Hret in Hpages. destruct Hpages as (ns & Hn & _ & Hr).
  exact (conj Hreach (conj Hret (ex_intro _ ns (conj Hn Hr)))).
Defined.

(** The middle of a cycle: one task in a channel of capacity 100, which is
    open. *)
Lemma channel_bounded_and_open_witness :
  let s := state_after (H := Sim.host) Scenario.cfg Busy.mid_cycle
             Scenario.one_unreachable in
  reachable (H := Sim.host) Scenario.cfg Scenario.one_unreachable s /\
  length (st_queue s) = 1%nat /\
  (length (st_queue s) <= capacity Scenario.cfg)%nat /\
  st_closed s = false.
Proof.
  intros s.
  assert (reachable (H := Sim.host) Scenario.cfg Scenario.one_unreachable s)
    as Hreach by apply (state_after_reachable (H := Sim.host)).
  assert (length (st_queue s) = 1%nat) as Hlen by (vm_compute; reflexivity).
  assert (listing (st_orch s)) as Hlisting by (vm_compute; exact I).
  destruct (channel_bounded_and_open (H := Sim.host) Scenario.cfg
              Scenario.one_unreachable s Hreach) as (Hcap & Hopen & _).
  exact (conj Hreach (conj Hlen (conj Hcap (Hopen Hlisting)))).
Defined.

(** The cycle with two workers: two workers, and the tasks done were done
    by workers 0 and 1. *)
Lemma workers_as_configured_witness :
  let s := state_after (H := Sim.host) Scenario.cfg Scenario.one_cycle
             Scenario.one_unreachable in
  reachable (H := Sim.host) Scenario.cfg Scenario.one_unreachable s /\
  st_orch s = OReturned None /\
  length (st_workers s) = 2%nat /\
  forall i t r, (i, t, r) ∈ g_done s -> (i < 2)%nat.
Proof.
  intros s.
  assert (reachable (H := Sim.host) Scenario.cfg Scenario.one_unreachable s)
    as Hreach by apply (state_after_reachable (H := Sim.host)).
  assert (st_orch s = OReturned None) as Hret by (vm_compute; reflexivity).
  destruct (workers_as_configured (H := Sim.host) Scenario.cfg
              Scenario.one_unreachable s Hreach) as [Hlen Hdone].
  specialize (Hlen (or_intror Hret)).
  change (Z.to_nat (WorkerCount Scenario.cfg)) with 2%nat in Hlen.
  rewrite Hlen in Hdone.
  exact (conj Hreach (conj Hret (conj Hlen Hdone))).
Defined.

(** No workers configured: both tasks are in the channel, [syncRepos]
    stands at its wait and nothing gets done. *)
Lemma no_workers_no_progress_witness :
  let s := state_after (H := Sim.host) NoWorkers.cfg NoWorkers.until_wait
             Scenario.one_unreachable in
  WorkerCount NoWorkers.cfg <= 0 /\
  reachable (H := Sim.host) NoWorkers.cfg Scenario.one_unreachable s /\
  st_orch s = OWait /\ length (st_queue s) = 2%nat /\
  st_workers s = [] /\ g_done s = [].
Proof.
  intros s.
  assert (WorkerCount NoWorkers.cfg <= 0) as Hnone by (cbn; lia).
  assert (reachable (H := Sim.host) NoWorkers.cfg Scenario.one_unreachable s)
    as Hreach by apply (state_after_reachable (H := Sim.host)).
  assert (st_orch s = OWait) as Hwait by (vm_compute; reflexivity).
  assert (length (st_queue s) = 2%nat) as Hlen by (vm_compute; reflexivity).
  destruct (no_workers_no_progress (H := Sim.host) NoWorkers.cfg
              Scenario.one_unreachable s Hnone Hreach) as (Hw & Hd & _).
  exact (conj Hnone (conj Hreach (conj Hwait (conj Hlen (conj Hw Hd))))).
Defined.

(** A queue size of -1: the cycle is entered, the directory is there and
    the step that makes the channel panics. *)
Lemma negative_capacity_panics_witness :
  let s := state_after (H := Sim.host) NegativeQueue.cfg
             NegativeQueue.until_make Scenario.one_unreachable in
  WorkQueueSize NegativeQueue.cfg < 0 /\
  reachable (H := Sim.host) NegativeQueue.cfg Scenario.one_unreachable s /\
  st_orch s = OStart /\ g_requests s = [] /\
  forall s', exec (H := Sim.host) NegativeQueue.cfg TOrch s = Some s' ->
    st_main s' = MPanicked \/
    exists e, st_orch s' = OReturned (Some (ErrMkdir e)).
Proof.
  intros s.
  assert (WorkQueueSize NegativeQueue.cfg < 0) as Hneg by (cbn; lia).
  assert (reachable (H := Sim.host) NegativeQueue.cfg
            Scenario.one_unreachable s)
    as Hreach by apply (state_after_reachable (H := Sim.host)).
  assert (st_orch s = OStart) as Hstart by (vm_compute; reflexivity).
  destruct (negative_capacity_panics (H := Sim.host) NegativeQueue.cfg
              Scenario.one_unreachable s Hneg Hreach) as (Hreq & _ & _ & Hp).
  exact (conj Hneg (conj Hreach (conj Hstart (conj Hreq Hp)))).
Defined.

(** The signal in the middle of a cycle: [main] returns with worker 0
    inside [processRepo] and a task in the channel. *)
Lemma signal_exit_never_waits_witness :
  let s := state_after (H := Sim.host) Scenario.cfg Busy.mid_cycle
             Scenario.one_unreachable in
  st_main s = MSelect /\ length (st_queue s) = 1%nat /\
  exists s', run (H := Sim.host) Scenario.cfg [TSignal; TMainSig; TMainExit] s
               = Some s' /\
    st_main s' = MExited /\ st_queue s' = st_queue s /\
    st_workers s' = st_workers s.
Proof.
  intros s.
  assert (st_main s = MSelect) as Hmain by (vm_compute; reflexivity).
  assert (length (st_queue s) = 1%nat) as Hlen by (vm_compute; reflexivity).
  destruct (signal_exit_never_waits (H := Sim.host) Scenario.cfg s Hmain)
    as (s' & Hrun & Hexit & Hw & Hq & _).
  exact (conj Hmain (conj Hlen
           (ex_intro _ s' (conj Hrun (conj Hexit (conj Hq Hw)))))).
Defined.

(** * Cancellation, and the error of a cycle on its way to [main] *)
Section MoreShutdown.
Context {H : Host}.
Implicit Types (config : Config) (s : State) (l : Label).

(** The updater logs no line of [main]. *)
Lemma update_logs_no_sync_error i config t wd e :
  LogSyncError e ∉ out_log (update i config t wd).
Proof.
  unfold_update.
  destruct (os_Stat _ wd) as [[]|]; cbn.
  3: { destruct (git_PlainClone _ _ wd) as [wd' [e'|]]; cbn; not_in_calls. }
  all: destruct (git_PlainOpen _ wd) as [e'|]; cbn; [not_in_calls|].
  all: destruct (git_Worktree _ wd) as [e'|]; cbn; [not_in_calls|].
  all: destruct (git_Pull _ _ wd) as [wd' [[]|]]; cbn;
         repeat (case_bool_decide; try done; cbn); not_in_calls.
Qed.

Lemma handed_over_step config s l s' :
  sequenced s -> handed_over s -> exec config l s = Some s' ->
  handed_over s'.
Proof.
  intros Hseq [Hchan Hlog] Hexec.
  pose proof (seq_between _ Hseq) as Hb. clear Hseq.
  exec_cases Hexec; split; state_simpl; intros e0 Hin.
  all: try (apply elem_of_app in Hin as [Hin|Hin]).
  all: try (by apply update_logs_no_sync_error in Hin).
  all: try (apply elem_of_cons in Hin as [Hin|Hin];
              [|by apply elem_of_nil in Hin]).
  all: simplify_eq.
  all: try (by apply Hchan).
  all: try (by apply Hlog).
  all: try (specialize (Hchan _ Hin); congruence).
  all: try (specialize (Hlog _ Hin); congruence).
  all: try (destruct (Hb I) as [Ho|Ho];
            first [specialize (Hchan _ Hin) | specialize (Hlog _ Hin)];
            congruence).
  all: done.
Qed.

Lemma handed_over_reachable config w s :
  reachable config w s -> handed_over s.
Proof.
  intros Hreach. induction Hreach as [|s l s' Hreach IH Hexec].
  - split; cbn; intros e Hin; [discriminate|by apply elem_of_nil in Hin].
  - eapply handed_over_step; [|exact IH|exact Hexec].
    by eapply sequenced_reachable.
Qed.

Lemma cycle_error_not_task mkdir requests e :
  cycle_error mkdir requests = Some e -> ~ is_task_error e.
Proof.
  destruct mkdir as [e'|]; cbn; [intros [= <-]; cbn; tauto|].
  induction requests as [|[req [x|p]] reqs IH]; cbn; intros Heq;
    simplify_eq; cbn; first [tauto | by apply IH].
Qed.

(** What [main] logs as the error of the sync is what [syncRepos]
    returned: the error of [os.MkdirAll] or of the first failed list
    request, and never the error of an update. *)
Theorem main_reports_cycle_error config w s e :
  reachable config w s -> LogSyncError e ∈ st_log s ->
  st_orch s = OReturned (Some e) /\
  cycle_error (g_mkdir s) (g_requests s) = Some e /\
  ~ is_task_error e.
Proof.
  intros Hreach Hin.
  pose proof (ho_logged _ (handed_over_reachable _ _ _ Hreach) _ Hin) as Ho.
  pose proof (rep_returned _ (reported_reachable _ _ _ Hreach) _ Ho) as Hr.
  split_and!; try done. by eapply cycle_error_not_task.
Qed.

Lemma told_step config s l s' :
  told s -> exec config l s = Some s' -> told s'.
Proof.
  unfold told. intros Htold Hexec.
  exec_cases Hexec; state_simpl; intros j Hj; auto.
  all: try (by apply (Htold j)).
  all: try (apply lookup_replicate in Hj as [? _]; discriminate).
  all: try (destruct (decide (j = i)) as [->|Hne];
            [rewrite list_lookup_insert_eq in Hj
               by (by eapply lookup_lt_Some);
             simplify_eq
            |rewrite list_lookup_insert_ne in Hj by done; by apply (Htold j)]).
  all: try (destruct (Htold j Hj) as [?|?]; auto; congruence).
Qed.

(** A worker returns only when it was told to: in every reachable state a
    worker that has returned did so on a closed channel or a cancelled
    context, and no error of an update makes it return. *)
Theorem worker_returns_only_when_told config w s i :
  reachable config w s -> st_workers s !! i = Some WExit ->
  st_closed s = true \/ st_cancelled s = true.
Proof.
  intros Hreach. revert i. change (told s). revert s Hreach.
  apply reachable_ind_inv.
  - intros i Hi. cbn in Hi. by rewrite lookup_nil in Hi.
  - intros ? ? ?. apply told_step.
Qed.

(** Once the context is cancelled no cycle is entered any more, whatever
    runs afterwards; a cycle in progress is not touched by this. *)
Theorem no_cycle_after_cancel config s ls s' :
  st_cancelled s = true -> st_orch s <> OStart ->
  run config ls s = Some s' ->
  st_cancelled s' = true /\ st_orch s' <> OStart.
Proof.
  revert s. induction ls as [|l ls IH]; intros s Hc Ho Hrun; cbn in Hrun.
  - by simplify_eq.
  - destruct (exec config l s) as [s1|] eqn:Hexec; [|discriminate].
    apply (IH s1); [| |done].
    + clear IH Hrun. exec_cases Hexec; state_simpl; congruence.
    + clear IH Hrun. exec_cases Hexec; state_simpl; congruence.
Qed.

(** A worker that has received a task sees it through whatever the
    context says: the tick, [processRepo] and [wg.Done] follow, the result
    is recorded whether an error or not, and the worker is back at its
    [select]. *)
Theorem received_task_is_seen_through config s i t :
  alive s = true -> st_workers s !! i = Some (WTick t) ->
  let o := update i config t (st_world s) in
  exists s', run config [TTick i; TProcess i; TFinish i] s = Some s' /\
    st_counter s' = st_counter s - 1 /\
    g_done s' = g_done s ++ [(i, t, out_err o)] /\
    st_world s' = out_world o /\
    st_workers s' !! i = Some WSelect /\
    st_cancelled s' = st_cancelled s /\ st_main s' = st_main s.
Proof.
  intros Halive Hi o.
  assert (i < length (st_workers s))%nat as Hlt by by eapply lookup_lt_Some.
  cbn [run]. unfold exec at 1. rewrite Halive. cbn. rewrite Hi. cbn.
  unfold exec at 1. unfold alive at 1. state_simpl.
  fold (alive s). rewrite Halive. cbn.
  rewrite list_lookup_insert_eq by done. cbn.
  unfold exec at 1. unfold alive at 1. state_simpl.
  fold (alive s). rewrite Halive. cbn.
  rewrite list_lookup_insert_eq by (by rewrite length_insert). cbn.
  fold o. destruct (out_err o) as [e|]; eexists; (split; [reflexivity|]);
    unfold logs; state_simpl;
    rewrite list_lookup_insert_eq by (by rewrite !length_insert);
    by split_and!.
Qed.
End MoreShutdown.

(** The failed request for page 2, handed to [main] and logged by it. *)
Lemma main_reports_cycle_error_witness :
  let e := ErrList (ErrOther "service unavailable") in
  let s := state_after (H := Sim.host) Scenario.cfg
             (ListFailure.until_return ++ [TLoop; TMainErr])
             ListFailure.world in
  reachable (H := Sim.host) Scenario.cfg ListFailure.world s /\
  LogSyncError e ∈ st_log s /\
  st_orch s = OReturned (Some e) /\
  cycle_error (g_mkdir s) (g_requests s) = Some e.
Proof.
  intros e s.
  assert (reachable (H := Sim.host) Scenario.cfg ListFailure.world s)
    as Hreach by apply (state_after_reachable (H := Sim.host)).
  assert (LogSyncError e ∈ st_log s) as Hin.
  { apply last_Some_elem_of. vm_compute. reflexivity. }
  destruct (main_reports_cycle_error (H := Sim.host) Scenario.cfg
              ListFailure.world s e Hreach Hin) as (Ho & Hc & _).
  exact (conj Hreach (conj Hin (conj Ho Hc))).
Defined.

(** After the cycle has returned, worker 0 finds the channel closed and
    returns. *)
Lemma worker_returns_only_when_told_witness :
  let s := state_after (H := Sim.host) Scenario.cfg Drained.after_close
             Scenario.one_unreachable in
  reachable (H := Sim.host) Scenario.cfg Scenario.one_unreachable s /\
  st_workers s !! 0%nat = Some WExit /\
  st_cancelled s = false /\
  (st_closed s = true \/ st_cancelled s = true).
Proof.
  intros s.
  assert (reachable (H := Sim.host) Scenario.cfg Scenario.one_unreachable s)
    as Hreach by apply (state_after_reachable (H := Sim.host)).
  assert (st_workers s !! 0%nat = Some WExit) as Hexit
    by (vm_compute; reflexivity).
  assert (st_cancelled s = false) as Hc by (vm_compute; reflexivity).
  exact (conj Hreach (conj Hexit (conj Hc
           (worker_returns_only_when_told (H := Sim.host) Scenario.cfg
              Scenario.one_unreachable s 0%nat Hreach Hexit)))).
Defined.

(** Cancelled in the middle of a cycle: worker 0 sees its task through,
    both workers return, and no cycle is entered. *)
Lemma no_cycle_after_cancel_witness :
  let s := state_after (H := Sim.host) Scenario.cfg Cancelled.holding
             Scenario.one_unreachable in
  let s' := state_after (H := Sim.host) Scenario.cfg
              (Cancelled.holding ++ Cancelled.wind_down)
              Scenario.one_unreachable in
  st_cancelled s = true /\ st_orch s <> OStart /\
  run (H := Sim.host) Scenario.cfg Cancelled.wind_down s = Some s' /\
  st_cancelled s' = true /\ st_orch s' <> OStart.
Proof.
  intros s s'.
  assert (st_cancelled s = true) as Hc by (vm_compute; reflexivity).
  assert (st_orch s = ORange [] 0) as Hrange by (vm_compute; reflexivity).
  assert (st_orch s <> OStart) as Ho by (rewrite Hrange; discriminate).
  assert (run (H := Sim.host) Scenario.cfg Cancelled.wind_down s = Some s')
    as Hrun.
  { apply (run_state_after (H := Sim.host)). vm_compute. reflexivity. }
  exact (conj Hc (conj Ho (conj Hrun
           (no_cycle_after_cancel (H := Sim.host) Scenario.cfg s
              Cancelled.wind_down s' Hc Ho Hrun)))).
Defined.

(** Worker 0 has received the first task when [main] cancels: the task is
    still processed and counted down. *)
Lemma received_task_is_seen_through_witness :
  let s := state_after (H := Sim.host) Scenario.cfg Cancelled.holding
             Scenario.one_unreachable in
  let t := newTask (H := Sim.host) Scenario.cfg (Scenario.repo "good") in
  alive s = true /\ st_cancelled s = true /\
  st_workers s !! 0%nat = Some (WTick t) /\
  exists s',
    run (H := Sim.host) Scenario.cfg [TTick 0; TProcess 0; TFinish 0] s
      = Some s' /\
    st_counter s' = st_counter s - 1 /\
    st_workers s' !! 0%nat = Some WSelect.
Proof.
  intros s t.
  assert (alive s = true) as Halive by (vm_compute; reflexivity).
  assert (st_cancelled s = true) as Hc by (vm_compute; reflexivity).
  assert (st_workers s !! 0%nat = Some (WTick t)) as Hw
    by (vm_compute; reflexivity).
  destruct (received_task_is_seen_through (H := Sim.host) Scenario.cfg s
              0%nat t Halive Hw) as (s' & Hrun & Hcount & _ & _ & Hsel & _).
  exact (conj Halive (conj Hc (conj Hw
           (ex_intro _ s' (conj Hrun (conj Hcount Hsel)))))).
Defined.
